(** * pdfmerger: the page collection of [src/main.js] and its merge/export

    A shallow embedding of the page-list bookkeeping of [src/main.js]
    ([loadPDFs], [toggleSelection], [rotateSelected], [deleteSelected],
    [reorderPages], [downloadMerged]) and the properties of the
    specification that concern it.

    Conventions.
    - The module-level [pages] array and [selectedPages] Set are the two
      fields of [State]; every function of the source that touches them
      becomes a function on [State] (or on the array alone).
    - A JavaScript number holding a small integer is a [Z]; [%] is the
      truncating remainder [Z.rem].
    - The DOM work ([updateUI], [renderThumbnails], the progress overlay)
      does not touch [pages] or [selectedPages] and is left out.
    - pdf-lib, pdf.js and [crypto.randomUUID] are outside the repository:
      what their parsers answer on given bytes is the interface [External];
      the few library operations whose behaviour the source relies on
      ([copyPages], [setRotation], [addPage]) are written out next to their
      use. *)

From stdpp Require Import gmap strings list pretty.

Open Scope Z_scope.

(** ** Data model *)

(** The [PDFPageProxy] that pdf.js hands out for a page: kept in a record
    only for thumbnails, identified here by the data it was opened on and
    its 1-based page number. *)
Record PDFPageProxy := {
  proxyData : list Byte.byte;
  pageNumber : nat
}.

(** The object literal pushed by [loadPDFs]. *)
Record PageRecord := {
  id : string;
  sourceFile : string;
  sourcePageIndex : nat;
  pdfBytes : list Byte.byte;
  rotation : Z;
  pdfJsPage : PDFPageProxy
}.

(** [let pages = []; let selectedPages = new Set();] together with the
    number of identifiers drawn so far from [crypto.randomUUID]. *)
Record State := {
  pages : list PageRecord;
  selectedPages : gset string;
  uuidCalls : nat
}.

Definition initial : State :=
  {| pages := []; selectedPages := ∅; uuidCalls := 0 |}.

(** A dropped [File]: [file.name] and the bytes of [file.arrayBuffer()]. *)
Record File := {
  name : string;
  arrayBuffer : list Byte.byte
}.

(** What is outside the repository. [PDFDocument_parse b] is what pdf-lib's
    [PDFDocument.load] finds in [b]: [None] when it throws, otherwise the
    [Rotate] angle of each page, in page order. [getDocument b] tells
    whether pdf.js opens [b]; [getPage b n] is its answer for the 1-based
    page [n] ([None]: the promise rejects). [randomUUID n] is the [n]-th
    identifier that [crypto.randomUUID] returns. *)
Class External := {
  PDFDocument_parse : list Byte.byte → option (list Z);
  getDocument : list Byte.byte → bool;
  getPage : list Byte.byte → nat → option PDFPageProxy;
  randomUUID : nat → string
}.

(** ** JavaScript arrays *)

(** [Array.prototype.splice]: a negative [start] counts from the end, and
    both [start] and [deleteCount] are clamped to the array. Returns the
    array after the call and the array of removed elements. *)
Definition actualStart (len : nat) (start : Z) : nat :=
  if bool_decide (start < 0)
  then Z.to_nat (Z.max (Z.of_nat len + start) 0)
  else Z.to_nat (Z.min start (Z.of_nat len)).

Definition splice {A} (arr : list A) (start deleteCount : Z) (items : list A)
    : list A * list A :=
  let from := actualStart (length arr) start in
  let count :=
    Z.to_nat (Z.min (Z.max deleteCount 0) (Z.of_nat (length arr) - Z.of_nat from)) in
  (take from arr ++ items ++ drop (from + count) arr, take count (drop from arr)).

(** [arr[index] = x] on an array that may have holes: assigning past the
    end extends the array, leaving holes ([None]) in between. *)
Definition assign {A} (arr : list (option A)) (index : nat) (x : A)
    : list (option A) :=
  if bool_decide (index < length arr)%nat
  then <[index := Some x]> arr
  else arr ++ replicate (index - length arr) None ++ [Some x].

(** ** Selection, rotation, deletion *)

(** [toggleSelection(pageId)]: the write to [selectedPages]. The two DOM
    calls that follow it, [updatePageCards()] and [updateToolbarState()],
    run after the write and change neither [pages] nor [selectedPages];
    whether they end normally is outside this function ([updatePageCards]
    reads [pages[index].id] for every card of the grid and throws when the
    grid holds a card that has no record, the write being done by then). *)
Definition toggleSelection (pageId : string) (st : State) : State :=
  {| pages := pages st;
     selectedPages :=
       if bool_decide (pageId ∈ selectedPages st)
       then selectedPages st ∖ {[pageId]}
       else selectedPages st ∪ {[pageId]};
     uuidCalls := uuidCalls st |}.

(** [selectAll()] and [deselectAll()] *)
Definition selectAll (st : State) : State :=
  {| pages := pages st;
     selectedPages := foldl (λ s page, s ∪ {[id page]}) (selectedPages st) (pages st);
     uuidCalls := uuidCalls st |}.

Definition deselectAll (st : State) : State :=
  {| pages := pages st; selectedPages := ∅; uuidCalls := uuidCalls st |}.

(** [page.rotation = (page.rotation + 90) % 360] *)
Definition rotatePage (page : PageRecord) : PageRecord :=
  {| id := id page;
     sourceFile := sourceFile page;
     sourcePageIndex := sourcePageIndex page;
     pdfBytes := pdfBytes page;
     rotation := Z.rem (rotation page + 90) 360;
     pdfJsPage := pdfJsPage page |}.

(** [rotateSelected()]. [pages.filter(...)] returns the selected objects
    themselves, and the loop then writes to each of them. Every element of
    [pages] is an object literal of its own (created in [loadPDFs]; [splice]
    and [filter] never duplicate an element), so an object is named by the
    slot that holds it: [selectedList] is the list of selected slots, in
    array order, and the loop updates one slot per iteration. *)
Definition selectedList (st : State) : list nat :=
  (filter (λ e, id e.2 ∈ selectedPages st) (imap pair (pages st))).*1.

Definition rotateSelected (st : State) : State :=
  {| pages := foldl (λ arr slot, alter rotatePage slot arr) (pages st) (selectedList st);
     selectedPages := selectedPages st;
     uuidCalls := uuidCalls st |}.

(** [deleteSelected()] *)
Definition deleteSelected (st : State) : State :=
  {| pages := filter (λ p, id p ∉ selectedPages st) (pages st);
     selectedPages := ∅;
     uuidCalls := uuidCalls st |}.

(** [clearAll()] *)
Definition clearAll (st : State) : State :=
  {| pages := []; selectedPages := ∅; uuidCalls := uuidCalls st |}.

(** ** Reordering *)

(** [reorderPages(fromIndex, toIndex)]. The destructuring
    [const [movedPage] = pages.splice(fromIndex, 1)] yields [undefined]
    ([None]) when nothing was removed, and the second [splice] then inserts
    that [undefined]: the array after the call is an array of slots. *)
Definition reorderPages (fromIndex toIndex : Z) (pages : list PageRecord)
    : list (option PageRecord) :=
  let '(rest, removed) := splice (Some <$> pages) fromIndex 1 [] in
  let movedPage := mjoin (head removed) in
  (splice rest toIndex 0 [movedPage]).1.

(** ** Loading *)

(** How the [try] block of [loadPDFs] ended. *)
Inductive Outcome := Completed | Caught.

Section Load.
Context `{External}.

(** The object literal of [pages.push({...})]; [crypto.randomUUID()] is
    the next identifier of the generator. *)
Definition newRecord (file : File) (pdfBytes : list Byte.byte) (i : nat)
    (pdfJsPage : PDFPageProxy) (st : State) : PageRecord :=
  {| id := randomUUID (uuidCalls st);
     sourceFile := name file;
     sourcePageIndex := i;
     pdfBytes := pdfBytes;
     rotation := 0;
     pdfJsPage := pdfJsPage |}.

(** [for (let i = 0; i < pageCount; i++)], with [todo = pageCount - i]
    pages still to visit. A rejected [pdfJsDoc.getPage(i + 1)] leaves the
    loop through the [catch]; what was pushed before stays pushed. *)
Fixpoint loadPages (file : File) (pdfBytes : list Byte.byte) (todo i : nat)
    (st : State) : State * Outcome :=
  match todo with
  | O => (st, Completed)
  | S todo' =>
      match getPage pdfBytes (i + 1) with
      | None => (st, Caught)
      | Some pdfJsPage =>
          loadPages file pdfBytes todo' (S i)
            {| pages := pages st ++ [newRecord file pdfBytes i pdfJsPage st];
               selectedPages := selectedPages st;
               uuidCalls := S (uuidCalls st) |}
      end
  end.

(** The body of [for (const file of files)]. *)
Definition loadFile (file : File) (st : State) : State * Outcome :=
  let pdfBytes := arrayBuffer file in
  match PDFDocument_parse pdfBytes with
  | None => (st, Caught)
  | Some pdfDoc =>
      let pageCount := length pdfDoc in
      if getDocument pdfBytes
      then loadPages file pdfBytes pageCount 0 st
      else (st, Caught)
  end.

(** [loadPDFs(files)] *)
Fixpoint loadPDFs (files : list File) (st : State) : State * Outcome :=
  match files with
  | [] => (st, Completed)
  | file :: files' =>
      match loadFile file st with
      | (st', Completed) => loadPDFs files' st'
      | (st', Caught) => (st', Caught)
      end
  end.

End Load.

(** ** Export *)

(** A page of a pdf-lib document. [angle] is its [Rotate] entry;
    [origin] remembers, for a page made by [copyPages], the bytes of the
    document it was copied from and its index there (a page made by
    [addPage()] without argument has none). *)
Record PDFPage := {
  origin : option (list Byte.byte * nat);
  angle : Z
}.

(** The value [{ bytes, pages }] stored in [pagesBySource]; each element of
    [pages] is a [{ page, index }]. *)
Module Group.
Record t := { bytes : list Byte.byte; pages : list (PageRecord * nat) }.
End Group.

(** A JavaScript [Map] with string keys iterates in insertion order: an
    association list, where [set] on a key already present keeps its place. *)
Fixpoint Map_get {V} (key : string) (m : list (string * V)) : option V :=
  match m with
  | [] => None
  | (k, v) :: m' => if bool_decide (k = key) then Some v else Map_get key m'
  end.

Definition Map_has {V} (key : string) (m : list (string * V)) : bool :=
  bool_decide (is_Some (Map_get key m)).

Fixpoint Map_set {V} (key : string) (v : V) (m : list (string * V))
    : list (string * V) :=
  match m with
  | [] => [(key, v)]
  | (k, w) :: m' =>
      if bool_decide (k = key) then (k, v) :: m' else (k, w) :: Map_set key v m'
  end.

(** [page.sourceFile + '-' + page.pdfBytes.length] *)
Definition sourceKey (page : PageRecord) : string :=
  sourceFile page +:+ "-" +:+ pretty (length (pdfBytes page)).

(** The body of [pages.forEach((page, index) => ...)]; [push] writes to
    the group object held by the map. *)
Definition addToGroup (m : list (string * Group.t)) (page : PageRecord) (index : nat)
    : list (string * Group.t) :=
  let key := sourceKey page in
  let m1 :=
    if Map_has key m then m
    else Map_set key {| Group.bytes := pdfBytes page; Group.pages := [] |} m in
  match Map_get key m1 with
  | Some data =>
      Map_set key {| Group.bytes := Group.bytes data;
                     Group.pages := Group.pages data ++ [(page, index)] |} m1
  | None => m1
  end.

Definition pagesBySource (pages : list PageRecord) : list (string * Group.t) :=
  foldl (λ m e, addToGroup m e.2 e.1) [] (imap pair pages).

(** pdf-lib: [load] keeps the parsed pages; [copyPages(srcDoc, [i])]
    throws when [srcDoc] has no page [i] and otherwise returns a page with
    the angle of the source page; [setRotation] refuses an angle that is not
    a multiple of 90 and otherwise stores it as given; [addPage(undefined)]
    adds a new blank page. *)
Record PDFDocument := {
  docBytes : list Byte.byte;
  docAngles : list Z
}.

Definition copyPage (srcDoc : PDFDocument) (i : nat) : option PDFPage :=
  a ← docAngles srcDoc !! i;
  Some {| origin := Some (docBytes srcDoc, i); angle := a |}.

Definition setRotation (page : PDFPage) (degrees : Z) : option PDFPage :=
  if bool_decide (Z.rem degrees 90 = 0)
  then Some {| origin := origin page; angle := degrees |}
  else None.

Definition blankPage : PDFPage := {| origin := None; angle := 0 |}.

Definition addPage (page : option PDFPage) (doc : list PDFPage) : list PDFPage :=
  doc ++ [default blankPage page].

(** What [downloadMerged] did: returned at once on an empty collection,
    ended in its [catch], or saved the merged document. *)
Inductive Download :=
  | NothingToDo
  | Failed
  | Saved (mergedPdf : list PDFPage).

Section Merge.
Context `{External}.

Definition PDFDocument_load (b : list Byte.byte) : option PDFDocument :=
  angles ← PDFDocument_parse b;
  Some {| docBytes := b; docAngles := angles |}.

(** [for (const { page, index } of data.pages)] *)
Fixpoint copyGroup (srcDoc : PDFDocument) (entries : list (PageRecord * nat))
    (copiedPages : list (option PDFPage)) : option (list (option PDFPage)) :=
  match entries with
  | [] => Some copiedPages
  | (page, index) :: entries' =>
      copiedPage ← copyPage srcDoc (sourcePageIndex page);
      copiedPage ←
        (if bool_decide (rotation page ≠ 0)
         then setRotation copiedPage (angle copiedPage + rotation page)
         else Some copiedPage);
      copyGroup srcDoc entries' (assign copiedPages index copiedPage)
  end.

(** [for (const [key, data] of pagesBySource)] *)
Fixpoint copySources (groups : list (string * Group.t))
    (copiedPages : list (option PDFPage)) : option (list (option PDFPage)) :=
  match groups with
  | [] => Some copiedPages
  | (key, data) :: groups' =>
      srcDoc ← PDFDocument_load (Group.bytes data);
      copiedPages ← copyGroup srcDoc (Group.pages data) copiedPages;
      copySources groups' copiedPages
  end.

(** [downloadMerged()], up to the document handed to [mergedPdf.save()]. *)
Definition downloadMerged (pages : list PageRecord) : Download :=
  if bool_decide (length pages = 0%nat) then NothingToDo
  else
    match copySources (pagesBySource pages) [] with
    | None => Failed
    | Some copiedPages => Saved (foldl (λ doc page, addPage page doc) [] copiedPages)
    end.

End Merge.

(** ** Vocabulary of the properties *)

(** The ids of the records currently in the collection. *)
Definition liveIds (st : State) : gset string := list_to_set (id <$> pages st).

(** No dangling selection: every selected id is the id of a record of the
    collection. *)
Definition no_dangling (st : State) : Prop := selectedPages st ⊆ liveIds st.

(** Sequences of [ToggleSelect] and [DeleteSelected] operations, and the
    states they go through. *)
Inductive Op :=
  | ToggleSelect (pageId : string)
  | DeleteSelected.

Definition step (op : Op) (st : State) : State :=
  match op with
  | ToggleSelect pageId => toggleSelection pageId st
  | DeleteSelected => deleteSelected st
  end.

Fixpoint trace (ops : list Op) (st : State) : list State :=
  match ops with
  | [] => []
  | op :: ops' => step op st :: trace ops' (step op st)
  end.

(** Every [ToggleSelect] of the sequence is called on the id of a record
    that is in the collection at the time of the call (what a click on a
    page card does). *)
Fixpoint live_args (ops : list Op) (st : State) : Prop :=
  match ops with
  | [] => True
  | op :: ops' =>
      match op with
      | ToggleSelect pageId => pageId ∈ liveIds st
      | DeleteSelected => True
      end ∧ live_args ops' (step op st)
  end.

(** The rotations a record takes: [loadPDFs] creates it with 0 and
    [rotateSelected] is the only writer. *)
Definition valid_rotation (r : Z) : Prop := 0 ≤ r < 360.

(** Every record of the collection has such a rotation. *)
Definition rotations_valid (st : State) : Prop :=
  Forall (λ p, valid_rotation (rotation p)) (pages st).

(** Two records that agree on everything except, possibly, [rotation]. *)
Definition same_page (p q : PageRecord) : Prop :=
  id q = id p ∧ sourceFile q = sourceFile p ∧
  sourcePageIndex q = sourcePageIndex p ∧ pdfBytes q = pdfBytes p ∧
  pdfJsPage q = pdfJsPage p.

(** An index of the current collection. *)
Definition in_bounds (pages : list PageRecord) (i : Z) : Prop :=
  0 ≤ i < Z.of_nat (length pages).

(** The records held by an array of slots, in array order. *)
Definition records {A} (slots : list (option A)) : list A := omap (λ slot, slot) slots.

(** Vocabulary of the export. *)
Section ExportVocabulary.
Context `{External}.

(** The rotation that page [k] of the document with bytes [b] carries,
    as pdf-lib reads it. *)
Definition existingRotation (b : list Byte.byte) (k : nat) : option Z :=
  angles ← PDFDocument_parse b; angles !! k.

(** [q] is what the export makes of record [p] when it copies the page
    out of the document with bytes [b]: page [sourcePageIndex p] of [b],
    with the record's rotation added to the rotation the page carries
    there when the record's rotation is not 0. *)
Definition exported (b : list Byte.byte) (p : PageRecord) (q : PDFPage) : Prop :=
  ∃ a, existingRotation b (sourcePageIndex p) = Some a ∧
       origin q = Some (b, sourcePageIndex p) ∧
       angle q = (if bool_decide (rotation p ≠ 0) then a + rotation p else a).

(** The bytes that the export opens for a record [p] of [pages]: those of
    some record of [pages] with the same [sourceKey]. *)
Definition group_bytes (pages : list PageRecord) (p : PageRecord) (b : list Byte.byte)
    : Prop :=
  ∃ p0, p0 ∈ pages ∧ sourceKey p0 = sourceKey p ∧ b = pdfBytes p0.

(** Slot [i] of [copiedPages] holds a page (it is neither past the end
    nor a hole). *)
Definition filled (copiedPages : list (option PDFPage)) (i : nat) : Prop :=
  ∃ q, copiedPages !! i = Some (Some q).

(** The state of [copiedPages] during the export of [pages]: no longer
    than the collection, and whatever sits in slot [i] was made for the
    record at position [i]. *)
Definition copied_ok (pages : list PageRecord) (copiedPages : list (option PDFPage))
    : Prop :=
  (length copiedPages ≤ length pages)%nat ∧
  ∀ i q, copiedPages !! i = Some (Some q) →
    ∃ p b, pages !! i = Some p ∧ group_bytes pages p b ∧ exported b p q.

End ExportVocabulary.

(** The group of [page] after the [forEach] body ran on it. *)
Definition groupAfter (m : list (string * Group.t)) (page : PageRecord) (index : nat)
    : Group.t :=
  let old := Map_get (sourceKey page) m in
  {| Group.bytes := from_option Group.bytes (pdfBytes page) old;
     Group.pages := from_option Group.pages [] old ++ [(page, index)] |}.

(** Records with the same [sourceKey] hold the same bytes: no two
    different files of the collection share both name and length. *)
Definition keys_identify (pages : list PageRecord) : Prop :=
  ∀ p p0, p ∈ pages → p0 ∈ pages → sourceKey p0 = sourceKey p → pdfBytes p0 = pdfBytes p.

(** ** Concrete inputs

    A record as [loadPDFs] builds it for page [k] of a file named [f] with
    bytes [b], with id [i] and rotation [r]. *)
Definition mkPage (i f : string) (k : nat) (b : list Byte.byte) (r : Z) : PageRecord :=
  {| id := i; sourceFile := f; sourcePageIndex := k; pdfBytes := b; rotation := r;
     pdfJsPage := {| proxyData := b; pageNumber := S k |} |}.

(** The two pages of one file and the single page of another. *)
Definition page_a : PageRecord :=
  mkPage "a" "scan.pdf" 0 [Byte.x25; Byte.x50; Byte.x00; Byte.x00] 0.
Definition page_b : PageRecord :=
  mkPage "b" "scan.pdf" 1 [Byte.x25; Byte.x50; Byte.x00; Byte.x00] 0.
Definition page_c : PageRecord :=
  mkPage "c" "cover.pdf" 0 [Byte.x25; Byte.x50; Byte.x00] 0.

(** A collection of three pages with the first one selected. *)
Definition threePages : State :=
  {| pages := [page_a; page_b; page_c]; selectedPages := {["a"]}; uuidCalls := 3 |}.

(** A toy instance of the libraries, good enough to run the model: a
    document is the header [%P] followed by one byte per page, pdf-lib
    reads the page's [Rotate] as 90 times the low two bits of that byte, and
    pdf.js serves every page that pdf-lib counts. *)
Definition toyAngle (c : Byte.byte) : Z := 90 * (Z.of_N (Byte.to_N c) `mod` 4).

Definition toyParse (b : list Byte.byte) : option (list Z) :=
  match b with
  | Byte.x25 :: Byte.x50 :: body => Some (toyAngle <$> body)
  | _ => None
  end.

Definition toyLibs : External :=
  {| PDFDocument_parse := toyParse;
     getDocument := λ b, bool_decide (is_Some (toyParse b));
     getPage := λ b n,
       if bool_decide (1 ≤ n ≤ length b - 2)%nat
       then Some {| proxyData := b; pageNumber := n |} else None;
     randomUUID := λ n, pretty n |}.

(** The same, except that pdf.js serves only the first page of a document
    (as it does when the page tree of the file announces fewer pages than
    it holds: pdf-lib counts the leaves, pdf.js trusts the count). *)
Definition truncatedLibs : External :=
  {| PDFDocument_parse := toyParse;
     getDocument := λ b, bool_decide (is_Some (toyParse b));
     getPage := λ b n,
       if bool_decide (n = 1)%nat
       then Some {| proxyData := b; pageNumber := n |} else None;
     randomUUID := λ n, pretty n |}.

(** A two-page file, and a file that is not a document. *)
Definition twoPages : File :=
  {| name := "scan.pdf"; arrayBuffer := [Byte.x25; Byte.x50; Byte.x00; Byte.x00] |}.
Definition notPdf : File :=
  {| name := "notes.txt"; arrayBuffer := [Byte.x68; Byte.x69] |}.

(** Two different one-page files with the same name and the same length:
    the page of the first carries no rotation, the page of the second is
    rotated by 90. *)
Definition scanA : File :=
  {| name := "scan.pdf"; arrayBuffer := [Byte.x25; Byte.x50; Byte.x00] |}.
Definition scanB : File :=
  {| name := "scan.pdf"; arrayBuffer := [Byte.x25; Byte.x50; Byte.x01] |}.


(** ** The page cards and the events of the page

    [renderThumbnails] empties the grid and makes one card per element of
    [pages], in order; [createPageCard(page, index)] gives the card handlers
    that close over that [page] object and that [index]. Every function that
    changes [pages] is followed by a [renderThumbnails] (or hides the grid),
    so the cards a user can act on are those of the current state. *)
Record Card := {
  cardPage : PageRecord;
  cardIndex : nat
}.

Definition renderThumbnails (st : State) : list Card :=
  imap (λ index page, {| cardPage := page; cardIndex := index |}) (pages st).

(** The [click] handler of a card: both branches of its [if] are
    [toggleSelection(page.id)]. *)
Definition onCardClick (card : Card) (st : State) : State :=
  toggleSelection (id (cardPage card)) st.

(** The [drop] handler of a card, [draggedIndex] being the module
    variable that [dragstart] sets to the index of the dragged card and
    [dragend] resets to [null] ([None]). Returns the [pages] array after
    the handler. *)
Definition onCardDrop (draggedIndex : option nat) (card : Card)
    (pages : list PageRecord) : list (option PageRecord) :=
  match draggedIndex with
  | Some dragged =>
      if bool_decide (dragged ≠ cardIndex card)
      then reorderPages (Z.of_nat dragged) (Z.of_nat (cardIndex card)) pages
      else Some <$> pages
  | None => Some <$> pages
  end.

(** The state whose [pages] is the array [arr], when no slot of [arr] is
    [undefined]. *)
Definition withPages (arr : list (option PageRecord)) (st : State) : option State :=
  pages' ← mapM (λ slot, slot) arr;
  Some {| pages := pages'; selectedPages := selectedPages st;
          uuidCalls := uuidCalls st |}.

(** What a user can do on the page: choose or drop files, click a card,
    drag the card at one position onto the card at another, and press the
    toolbar buttons wired in [setupToolbar]. Each handler is taken to run to
    its end before the next event (the progress overlay covers the page
    while [loadPDFs] runs). *)
Inductive Event :=
  | FilesChosen (files : list File)
  | CardClicked (index : nat)
  | CardDragged (dragged index : nat)
  | SelectAllPressed
  | DeselectPressed
  | RotatePressed
  | DeletePressed
  | ClearPressed.

Section Events.
Context `{External}.

(** The state after an event ([None]: the array holds an [undefined]
    slot and is no collection any more). An event on a position that has
    no card does not happen. *)
Definition handle (e : Event) (st : State) : option State :=
  match e with
  | FilesChosen files =>
      Some (if bool_decide (0 < length files)%nat then (loadPDFs files st).1 else st)
  | CardClicked index =>
      match renderThumbnails st !! index with
      | Some card => Some (onCardClick card st)
      | None => Some st
      end
  | CardDragged dragged index =>
      match renderThumbnails st !! dragged, renderThumbnails st !! index with
      | Some source, Some target =>
          withPages (onCardDrop (Some (cardIndex source)) target (pages st)) st
      | _, _ => Some st
      end
  | SelectAllPressed => Some (selectAll st)
  | DeselectPressed => Some (deselectAll st)
  | RotatePressed => Some (rotateSelected st)
  | DeletePressed => Some (deleteSelected st)
  | ClearPressed => Some (clearAll st)
  end.

Fixpoint run (events : list Event) (st : State) : option State :=
  match events with
  | [] => Some st
  | e :: events' => st' ← handle e st; run events' st'
  end.

(** What holds of every record the page can hold: its id was drawn from
    the generator, its bytes parse to a document that has its page, and its
    rotation is a number of quarter turns. *)
Definition quarter_turn (r : Z) : Prop := r = 0 ∨ r = 90 ∨ r = 180 ∨ r = 270.

Definition drawn (st : State) (p : PageRecord) : Prop :=
  ∃ k, (k < uuidCalls st)%nat ∧ id p = randomUUID k.

Definition loaded (p : PageRecord) : Prop :=
  ∃ angles, PDFDocument_parse (pdfBytes p) = Some angles ∧
            (sourcePageIndex p < length angles)%nat.

Definition consistent (st : State) : Prop :=
  no_dangling st ∧
  NoDup (id <$> pages st) ∧
  Forall (λ p, drawn st p ∧ loaded p ∧ quarter_turn (rotation p)) (pages st).

End Events.

(** The export of the three-page collection under the toy libraries, the
    collection after moving its last page first and deleting the second
    page of the scan, a record whose page does not exist in its file, and
    the state after loading a two-page and a one-page file. *)
Definition threeMerged : list PDFPage :=
  [{| origin := Some (pdfBytes page_a, 0%nat); angle := 0 |};
   {| origin := Some (pdfBytes page_b, 1%nat); angle := 0 |};
   {| origin := Some (pdfBytes page_c, 0%nat); angle := 0 |}].

Definition twoLeft : list PageRecord := [page_c; page_a].

Definition page_gone : PageRecord :=
  mkPage "g" "short.pdf" 4 [Byte.x25; Byte.x50; Byte.x00; Byte.x00; Byte.x00] 0.


(** * Properties *)

(** ** Selection *)

Lemma elem_of_liveIds (st : State) (x : string) :
  x ∈ liveIds st ↔ ∃ p, p ∈ pages st ∧ id p = x.
Proof.
  unfold liveIds. rewrite elem_of_list_to_set, list_elem_of_fmap.
  naive_solver.
Qed.

Lemma toggleSelection_selected (pageId x : string) (st : State) :
  x ∈ selectedPages (toggleSelection pageId st) ↔
  (x = pageId ∧ pageId ∉ selectedPages st) ∨ (x ≠ pageId ∧ x ∈ selectedPages st).
Proof.
  unfold toggleSelection; simpl. case_bool_decide as Hin.
  - rewrite elem_of_difference, elem_of_singleton.
    destruct (decide (x = pageId)); naive_solver.
  - rewrite elem_of_union, elem_of_singleton.
    destruct (decide (x = pageId)); naive_solver.
Qed.

Lemma toggleSelection_no_dangling (pageId : string) (st : State) :
  no_dangling st → pageId ∈ liveIds st → no_dangling (toggleSelection pageId st).
Proof.
  unfold no_dangling. intros Hinv Hlive x.
  rewrite toggleSelection_selected. unfold liveIds in *; simpl.
  intros [[-> _]|[_ Hx]]; [done | by apply Hinv].
Qed.

Lemma deleteSelected_no_dangling (st : State) : no_dangling (deleteSelected st).
Proof. unfold no_dangling, deleteSelected; simpl. set_solver. Qed.

Lemma step_no_dangling (op : Op) (st : State) :
  no_dangling st →
  match op with ToggleSelect pageId => pageId ∈ liveIds st | DeleteSelected => True end →
  no_dangling (step op st).
Proof.
  destruct op; simpl; intros.
  - by apply toggleSelection_no_dangling.
  - apply deleteSelected_no_dangling.
Qed.

(** C5 (as the code has it): the write of [toggleSelection] to
    [selectedPages] never looks at [pages]. For every id, in the collection
    or not, the collection is left unchanged and the membership of that id
    in the selection is flipped, every other id staying as it was; an id
    that is not in the collection is therefore added to the selection when
    it was not selected. *)
Theorem toggleSelection_flips (pageId : string) (st : State) :
  pages (toggleSelection pageId st) = pages st ∧
  (pageId ∈ selectedPages (toggleSelection pageId st) ↔ pageId ∉ selectedPages st) ∧
  (∀ x, x ≠ pageId →
     (x ∈ selectedPages (toggleSelection pageId st) ↔ x ∈ selectedPages st)).
Proof.
  split; [done|]. split.
  - rewrite toggleSelection_selected. naive_solver.
  - intros x Hx. rewrite toggleSelection_selected. naive_solver.
Qed.

(** C5, refuted as stated: on the empty collection the id ["x"] is not
    live, yet [toggleSelection "x"] changes the selection. *)
Lemma toggleSelection_dead_id_not_noop :
  ¬ (∀ (pageId : string) (st : State),
       pageId ∉ liveIds st →
       selectedPages (toggleSelection pageId st) = selectedPages st ∧
       pages (toggleSelection pageId st) = pages st).
Proof.
  intros Hnoop.
  destruct (Hnoop "x" initial) as [Hsel _]; [set_solver|].
  assert (Hin : "x" ∈ selectedPages (toggleSelection "x" initial)).
  { apply toggleSelection_selected. left. set_solver. }
  rewrite Hsel in Hin. set_solver.
Qed.

(** C4 (as the code has it): starting from any state without dangling
    selection, a sequence of [ToggleSelect] and [DeleteSelected] operations
    whose [ToggleSelect] arguments are ids of the collection at the time of
    the call keeps the selection inside the ids of the collection after
    every operation. *)
Theorem selection_invariant (ops : list Op) (st : State) :
  no_dangling st → live_args ops st → Forall no_dangling (trace ops st).
Proof.
  revert st. induction ops as [|op ops IH]; intros st Hinv Hlive; simpl.
  - constructor.
  - destruct Hlive as [Hop Hrest].
    assert (no_dangling (step op st)) by by apply step_no_dangling.
    constructor; [done | by apply IH].
Qed.

Lemma selection_invariant_witness :
  no_dangling threePages ∧
  live_args [ToggleSelect "b"; DeleteSelected; ToggleSelect "c"] threePages ∧
  Forall no_dangling (trace [ToggleSelect "b"; DeleteSelected; ToggleSelect "c"] threePages).
Proof.
  assert (Hinv : no_dangling threePages)
    by (unfold no_dangling, liveIds; simpl; set_solver).
  assert (Hlive : live_args [ToggleSelect "b"; DeleteSelected; ToggleSelect "c"] threePages).
  { simpl. split; [unfold liveIds; simpl; set_solver|].
    split; [done|]. split; [|done].
    apply elem_of_liveIds. exists page_c. split; [|done].
    unfold deleteSelected, toggleSelection; simpl.
    apply list_elem_of_filter. split; [vm_compute; set_solver | set_solver]. }
  split; [exact Hinv|]. split; [exact Hlive|].
  exact (selection_invariant _ _ Hinv Hlive).
Defined.

(** C4, refuted as stated: from the initial state, one [ToggleSelect] on
    an id that is not in the collection leaves a dangling selection. *)
Lemma selection_invariant_arbitrary_ids_fails :
  ¬ (∀ (ops : list Op) (st : State),
       no_dangling st → Forall no_dangling (trace ops st)).
Proof.
  intros Hall.
  specialize (Hall [ToggleSelect "x"] initial).
  assert (Hinit : no_dangling initial) by (unfold no_dangling; set_solver).
  apply Hall in Hinit. apply Forall_cons in Hinit as [Hbad _].
  assert (Hin : "x" ∈ selectedPages (step (ToggleSelect "x") initial)).
  { apply toggleSelection_selected. left. set_solver. }
  apply Hbad in Hin. unfold liveIds in Hin; simpl in Hin. set_solver.
Qed.

(** ** Rotation *)

Lemma foldl_alter_lookup {A} (f : A → A) (slots : list nat) (arr : list A) (j : nat) :
  NoDup slots →
  foldl (λ arr slot, alter f slot arr) arr slots !! j =
    if bool_decide (j ∈ slots) then f <$> arr !! j else arr !! j.
Proof.
  intros Hnd. revert arr.
  induction Hnd as [|s slots Hs Hnd IH]; intros arr.
  - simpl. destruct (bool_decide_reflect (j ∈ @nil nat)) as [Hin|_]; [|done].
    by apply elem_of_nil in Hin.
  - cbn [foldl]. rewrite IH. destruct (decide (j = s)) as [->|Hne].
    + rewrite (bool_decide_eq_false_2 (s ∈ slots)) by done.
      rewrite bool_decide_eq_true_2 by set_solver.
      apply list_lookup_alter_eq.
    + rewrite list_lookup_alter_ne by done.
      apply (f_equal (λ b : bool, if b then f <$> arr !! j else arr !! j)).
      apply bool_decide_ext. set_solver.
Qed.

Lemma selectedList_NoDup (st : State) : NoDup (selectedList st).
Proof.
  unfold selectedList.
  eapply sublist_NoDup; [|apply fmap_sublist, sublist_filter].
  rewrite fmap_imap.
  rewrite (imap_ext _ (λ j _, j)) by done.
  rewrite (imap_seq_0 _ (λ j, j)), list_fmap_id. apply NoDup_seq.
Qed.

Lemma elem_of_selectedList (st : State) (j : nat) :
  j ∈ selectedList st ↔ ∃ p, pages st !! j = Some p ∧ id p ∈ selectedPages st.
Proof.
  unfold selectedList. rewrite list_elem_of_fmap. split.
  - intros [[i p] [-> [Hsel Hin]%list_elem_of_filter]]; simpl in *.
    apply elem_of_lookup_imap in Hin as (i' & p' & [= -> ->] & Hlook). eauto.
  - intros (p & Hlook & Hsel). exists (j, p). split; [done|].
    apply list_elem_of_filter. split; [done|].
    by apply (elem_of_lookup_imap_2 pair).
Qed.

(** One [rotateSelected()] call, record by record. *)
Lemma rotateSelected_pages (st : State) :
  pages (rotateSelected st) =
    (λ p, if bool_decide (id p ∈ selectedPages st) then rotatePage p else p) <$> pages st.
Proof.
  unfold rotateSelected; simpl. apply list_eq; intros j.
  rewrite foldl_alter_lookup by apply selectedList_NoDup.
  rewrite list_lookup_fmap. case_bool_decide as Hj.
  - apply elem_of_selectedList in Hj as (p & Hp & Hsel).
    rewrite Hp; simpl. by rewrite bool_decide_eq_true_2.
  - destruct (pages st !! j) as [p|] eqn:Hp; [|done]; simpl.
    rewrite bool_decide_eq_false_2; [done|].
    intros Hsel. apply Hj, elem_of_selectedList. eauto.
Qed.

Lemma rotateSelected_lookup (st : State) (i : nat) (p : PageRecord) :
  pages st !! i = Some p →
  pages (rotateSelected st) !! i =
    Some (if bool_decide (id p ∈ selectedPages st) then rotatePage p else p).
Proof. intros Hp. by rewrite rotateSelected_pages, list_lookup_fmap, Hp. Qed.

Lemma rotatePage_valid (p : PageRecord) :
  valid_rotation (rotation p) → valid_rotation (rotation (rotatePage p)).
Proof.
  unfold valid_rotation; simpl. intros Hr.
  rewrite Z.rem_mod_nonneg by lia.
  apply Z.mod_pos_bound. lia.
Qed.

Lemma rotatePage_mod (p : PageRecord) :
  0 ≤ rotation p → rotation (rotatePage p) = (rotation p + 90) `mod` 360.
Proof. intros Hr; simpl. apply Z.rem_mod_nonneg; lia. Qed.

Lemma rem_quarter_turn (r : Z) :
  0 ≤ r < 360 →
  0 ≤ Z.rem (r + 90) 360 < 360 ∧
  (Z.rem (r + 90) 360 = r + 90 ∨ Z.rem (r + 90) 360 = r - 270).
Proof.
  intros Hr. rewrite Z.rem_mod_nonneg by lia.
  split; [apply Z.mod_pos_bound; lia|].
  destruct (decide (r < 270)).
  - left. apply Z.mod_small. lia.
  - right. symmetry. apply (Z.mod_unique_pos _ _ 1); lia.
Qed.

Lemma rotatePage_four (p : PageRecord) :
  valid_rotation (rotation p) → rotatePage (rotatePage (rotatePage (rotatePage p))) = p.
Proof.
  unfold valid_rotation. intros Hr. destruct p as [i f k b r h]; simpl in *.
  unfold rotatePage; simpl. f_equal.
  destruct (rem_quarter_turn r Hr) as [Hr1 Hs1].
  destruct (rem_quarter_turn _ Hr1) as [Hr2 Hs2].
  destruct (rem_quarter_turn _ Hr2) as [Hr3 Hs3].
  destruct (rem_quarter_turn _ Hr3) as [Hr4 Hs4].
  lia.
Qed.

(** Every rotation stays one of the valid ones. *)
Lemma rotateSelected_valid (st : State) :
  rotations_valid st → rotations_valid (rotateSelected st).
Proof.
  unfold rotations_valid. rewrite rotateSelected_pages, Forall_fmap.
  intros Hst. eapply Forall_impl; [exact Hst|]. intros p Hp. unfold compose.
  destruct (bool_decide (id p ∈ selectedPages st)); [by apply rotatePage_valid | done].
Qed.

Lemma rotateSelected_iter_lookup (n : nat) (st : State) (i : nat) (p : PageRecord) :
  pages st !! i = Some p →
  pages (Nat.iter n rotateSelected st) !! i =
    Some (if bool_decide (id p ∈ selectedPages st) then Nat.iter n rotatePage p else p)
  ∧ selectedPages (Nat.iter n rotateSelected st) = selectedPages st.
Proof.
  intros Hp. induction n as [|n [IHp IHs]].
  - simpl. split; [|done]. by destruct (bool_decide _).
  - rewrite !Nat.iter_succ. split; [|by rewrite <-IHs].
    rewrite (rotateSelected_lookup _ _ _ IHp), IHs.
    case_bool_decide as Hsel; [|by rewrite bool_decide_eq_false_2].
    assert (Hid : ∀ m, id (Nat.iter m rotatePage p) = id p)
      by (intros m; induction m; simpl; congruence).
    by rewrite bool_decide_eq_true_2 by (by rewrite Hid).
Qed.

(** C8: one [rotateSelected()] sets [rotation] to [(rotation + 90) mod 360]
    on the records whose id is selected and leaves the others as they are;
    four calls in succession (the selection is not touched in between)
    bring a selected record, whose rotation is one the application
    produces, back to what it was. *)
Theorem rotateSelected_four_times (st : State) (i : nat) (p : PageRecord) :
  pages st !! i = Some p →
  valid_rotation (rotation p) →
  (id p ∈ selectedPages st →
     ∃ q, pages (rotateSelected st) !! i = Some q ∧ same_page p q ∧
          rotation q = (rotation p + 90) `mod` 360) ∧
  (id p ∉ selectedPages st → pages (rotateSelected st) !! i = Some p) ∧
  (id p ∈ selectedPages st →
     pages (rotateSelected (rotateSelected (rotateSelected (rotateSelected st)))) !! i
       = Some p).
Proof.
  intros Hp Hr. split; [|split].
  - intros Hsel. exists (rotatePage p). split; [|split].
    + by rewrite (rotateSelected_lookup _ _ _ Hp), bool_decide_eq_true_2.
    + unfold same_page; simpl; tauto.
    + apply rotatePage_mod. unfold valid_rotation in Hr. lia.
  - intros Hsel.
    by rewrite (rotateSelected_lookup _ _ _ Hp), bool_decide_eq_false_2.
  - intros Hsel.
    destruct (rotateSelected_iter_lookup 4 st i p Hp) as [H4 _].
    rewrite bool_decide_eq_true_2 in H4 by done.
    change (Nat.iter 4 rotatePage p)
      with (rotatePage (rotatePage (rotatePage (rotatePage p)))) in H4.
    rewrite rotatePage_four in H4 by done. exact H4.
Qed.

Lemma rotateSelected_four_times_witness :
  pages threePages !! 0%nat = Some page_a ∧
  valid_rotation (rotation page_a) ∧
  pages (rotateSelected (rotateSelected (rotateSelected (rotateSelected threePages))))
    !! 0%nat = Some page_a.
Proof.
  assert (Hvalid : valid_rotation (rotation page_a))
    by (unfold valid_rotation; simpl; lia).
  split; [reflexivity|]. split; [exact Hvalid|].
  apply (rotateSelected_four_times threePages 0 page_a eq_refl Hvalid).
  simpl. set_solver.
Defined.

(** C10: [rotateSelected()] writes the [rotation] field of the selected
    records and nothing else: the page sequence keeps its length and order,
    slot by slot the record is the same record up to [rotation], an
    unselected record is unchanged in every field, and the selection is the
    same set. *)
Theorem rotateSelected_frame (st : State) :
  length (pages (rotateSelected st)) = length (pages st) ∧
  Forall2 (λ p q, same_page p q ∧ (id p ∉ selectedPages st → q = p))
    (pages st) (pages (rotateSelected st)) ∧
  selectedPages (rotateSelected st) = selectedPages st.
Proof.
  rewrite rotateSelected_pages. split; [by rewrite length_fmap|]. split; [|done].
  apply Forall2_fmap_r, Forall_Forall2_diag, Forall_forall. intros p _.
  unfold compose. destruct (bool_decide (id p ∈ selectedPages st)) eqn:Hsel.
  - apply bool_decide_eq_true_1 in Hsel.
    split; [unfold same_page; simpl; tauto | intros Hn; contradiction].
  - split; [unfold same_page; tauto | done].
Qed.

(** ** Reordering *)

Section Splice.
Context {A : Type}.
Implicit Types (arr l items : list A) (x y : A).

Lemma actualStart_inside (len i : nat) : (i ≤ len)%nat → actualStart len (Z.of_nat i) = i.
Proof. intros Hi. unfold actualStart. rewrite bool_decide_eq_false_2 by lia. lia. Qed.

Lemma actualStart_past_end (len : nat) (start : Z) :
  Z.of_nat len ≤ start → actualStart len start = len.
Proof. intros Hi. unfold actualStart. rewrite bool_decide_eq_false_2 by lia. lia. Qed.

Lemma actualStart_le (len : nat) (start : Z) : (actualStart len start ≤ len)%nat.
Proof. unfold actualStart. case_bool_decide; lia. Qed.

(** [splice(i, 1)] at an index of the array removes that element. *)
Lemma splice_remove l1 l2 x :
  splice (l1 ++ x :: l2) (Z.of_nat (length l1)) 1 [] = (l1 ++ l2, [x]).
Proof.
  unfold splice. rewrite actualStart_inside by (rewrite length_app; lia).
  replace (Z.to_nat _) with 1%nat by (rewrite length_app; simpl; lia).
  rewrite take_app_length, drop_app_length. simpl.
  f_equal. f_equal.
  by rewrite <-drop_drop, drop_app_length.
Qed.

(** [splice(i, 1)] past the end removes nothing. *)
Lemma splice_remove_nothing arr (start : Z) :
  Z.of_nat (length arr) ≤ start → splice arr start 1 [] = (arr, []).
Proof.
  intros Hi. unfold splice. rewrite actualStart_past_end by done.
  replace (Z.to_nat _) with 0%nat by lia.
  by rewrite take_ge, !drop_ge, take_0, app_nil_r by lia.
Qed.

(** [splice(j, 0, y)] inserts [y] before index [j]. *)
Lemma splice_insert l1 l2 y :
  splice (l1 ++ l2) (Z.of_nat (length l1)) 0 [y] = (l1 ++ y :: l2, []).
Proof.
  unfold splice. rewrite actualStart_inside by (rewrite length_app; lia).
  replace (Z.to_nat _) with 0%nat by (rewrite length_app; lia).
  by rewrite take_app_length, Nat.add_0_r, drop_app_length, take_0.
Qed.

(** [splice(j, 0, y)] past the end appends [y]: the index is clamped. *)
Lemma splice_insert_clamped arr (start : Z) y :
  Z.of_nat (length arr) ≤ start → splice arr start 0 [y] = (arr ++ [y], []).
Proof.
  intros Hi. unfold splice. rewrite actualStart_past_end by done.
  replace (Z.to_nat _) with 0%nat by lia.
  by rewrite take_ge, drop_ge, take_0 by lia.
Qed.

(** Whatever the arguments, [splice] loses no element, removes at most
    [deleteCount] of them and, with [deleteCount = 0], only inserts. *)
Lemma splice_Permutation arr (start deleteCount : Z) items :
  (splice arr start deleteCount items).1 ++ (splice arr start deleteCount items).2
    ≡ₚ items ++ arr.
Proof.
  unfold splice; simpl.
  set (from := actualStart _ _). set (count := Z.to_nat _).
  rewrite <-(take_drop from arr) at 4.
  rewrite <-(take_drop count (drop from arr)) at 2.
  rewrite drop_drop. solve_Permutation.
Qed.

Lemma splice_removed_length arr (start : Z) items :
  (length (splice arr start 1 items).2 ≤ 1)%nat.
Proof. unfold splice; simpl. rewrite length_take. lia. Qed.

Lemma splice_insert_removed arr (start : Z) items : (splice arr start 0 items).2 = [].
Proof.
  unfold splice; simpl.
  pose proof (actualStart_le (length arr) start).
  replace (Z.to_nat _) with 0%nat by lia. apply take_0.
Qed.

End Splice.

Lemma reorderPages_unfold (fromIndex toIndex : Z) (pages : list PageRecord) :
  reorderPages fromIndex toIndex pages =
    (splice (splice (Some <$> pages) fromIndex 1 []).1 toIndex 0
       [mjoin (head (splice (Some <$> pages) fromIndex 1 []).2)]).1.
Proof. unfold reorderPages. by destruct (splice (Some <$> pages) fromIndex 1 []). Qed.

Lemma reorderPages_move (l1 l2 r1 r2 : list PageRecord) (p : PageRecord) :
  l1 ++ l2 = r1 ++ r2 →
  reorderPages (Z.of_nat (length l1)) (Z.of_nat (length r1)) (l1 ++ p :: l2)
    = Some <$> (r1 ++ p :: r2).
Proof.
  intros Hrest. rewrite reorderPages_unfold.
  rewrite fmap_app, fmap_cons.
  rewrite <-(length_fmap Some l1), splice_remove. cbn [fst snd].
  change (mjoin (head [Some p])) with (Some p).
  rewrite <-fmap_app, Hrest, fmap_app.
  rewrite <-(length_fmap Some r1), splice_insert. cbn [fst].
  by rewrite fmap_app, fmap_cons.
Qed.

Lemma reorderPages_to_past_end (l1 l2 : list PageRecord) (p : PageRecord) (toIndex : Z) :
  Z.of_nat (length (l1 ++ p :: l2)) ≤ toIndex →
  reorderPages (Z.of_nat (length l1)) toIndex (l1 ++ p :: l2)
    = Some <$> (l1 ++ l2 ++ [p]).
Proof.
  intros Hto. rewrite reorderPages_unfold.
  rewrite fmap_app, fmap_cons.
  rewrite <-(length_fmap Some l1), splice_remove. cbn [fst snd].
  change (mjoin (head [Some p])) with (Some p).
  rewrite splice_insert_clamped.
  - cbn [fst]. by rewrite !fmap_app, <-app_assoc.
  - rewrite length_app, !length_fmap. rewrite length_app in Hto. simpl in Hto. lia.
Qed.

(** With [fromIndex] past the end nothing is removed and the
    [undefined] that the destructuring produced is inserted. *)
Lemma reorderPages_from_past_end (pages : list PageRecord) (fromIndex : Z) (j : nat) :
  Z.of_nat (length pages) ≤ fromIndex → (j ≤ length pages)%nat →
  reorderPages fromIndex (Z.of_nat j) pages
    = (Some <$> take j pages) ++ None :: (Some <$> drop j pages).
Proof.
  intros Hfrom Hj. rewrite reorderPages_unfold.
  rewrite splice_remove_nothing by (by rewrite length_fmap). cbn [fst snd].
  change (mjoin (head [])) with (@None PageRecord).
  rewrite <-(take_drop j pages) at 1. rewrite fmap_app.
  assert (Hlen : Z.of_nat j = Z.of_nat (length (Some <$> take j pages)))
    by (rewrite length_fmap, length_take; lia).
  by rewrite Hlen, splice_insert.
Qed.

Lemma in_bounds_split (pages : list PageRecord) (i : Z) :
  in_bounds pages i →
  ∃ l1 p l2, pages = l1 ++ p :: l2 ∧ i = Z.of_nat (length l1).
Proof.
  intros [Hlo Hhi].
  destruct (lookup_lt_is_Some_2 pages (Z.to_nat i)) as [p Hp]; [lia|].
  exists (take (Z.to_nat i) pages), p, (drop (S (Z.to_nat i)) pages). split.
  - by rewrite take_drop_middle.
  - rewrite length_take. lia.
Qed.

(** C7: for indices [i] and [j] of the collection, [reorderPages(i, j)]
    produces a collection (no empty slot) on which [reorderPages(j, i)]
    gives back the original sequence; nothing depends on [i] and [j] being
    adjacent or not, equal or not. *)
Theorem reorderPages_inverse (pages : list PageRecord) (i j : Z) :
  in_bounds pages i → in_bounds pages j →
  ∃ pages', reorderPages i j pages = Some <$> pages' ∧
            reorderPages j i pages' = Some <$> pages.
Proof.
  intros Hi Hj.
  destruct (in_bounds_split _ _ Hi) as (l1 & p & l2 & -> & ->).
  destruct Hj as [Hj0 Hj]. rewrite length_app in Hj; simpl in Hj.
  set (rest := l1 ++ l2).
  assert (Hlen : (Z.to_nat j ≤ length rest)%nat)
    by (unfold rest; rewrite length_app; lia).
  assert (Hrest : l1 ++ l2 = take (Z.to_nat j) rest ++ drop (Z.to_nat j) rest)
    by (by rewrite take_drop).
  assert (Hj' : j = Z.of_nat (length (take (Z.to_nat j) rest)))
    by (rewrite length_take; lia).
  exists (take (Z.to_nat j) rest ++ p :: drop (Z.to_nat j) rest). split.
  - rewrite Hj' at 1. by apply reorderPages_move.
  - rewrite Hj' at 1. by apply reorderPages_move.
Qed.

Lemma reorderPages_inverse_witness :
  in_bounds (pages threePages) 0 ∧ in_bounds (pages threePages) 2 ∧
  ∃ pages', reorderPages 0 2 (pages threePages) = Some <$> pages' ∧
            reorderPages 2 0 pages' = Some <$> pages threePages.
Proof.
  assert (H0 : in_bounds (pages threePages) 0) by (unfold in_bounds; simpl; lia).
  assert (H2 : in_bounds (pages threePages) 2) by (unfold in_bounds; simpl; lia).
  split; [exact H0|]. split; [exact H2|].
  exact (reorderPages_inverse (pages threePages) 0 2 H0 H2).
Defined.

(** C6 (as the code has it): [reorderPages] has no bounds check and rejects
    nothing. With [fromIndex] in bounds and [toIndex] at or past the end of
    the collection, [splice] clamps [toIndex]: the record at [fromIndex] is
    moved to the end of the sequence. *)
Theorem reorderPages_clamps (pages : list PageRecord) (fromIndex toIndex : Z)
    (p : PageRecord) :
  in_bounds pages fromIndex →
  pages !! Z.to_nat fromIndex = Some p →
  Z.of_nat (length pages) ≤ toIndex →
  reorderPages fromIndex toIndex pages
    = Some <$> (delete (Z.to_nat fromIndex) pages ++ [p]).
Proof.
  intros Hi Hp Hto.
  destruct (in_bounds_split _ _ Hi) as (l1 & q & l2 & -> & ->).
  rewrite Nat2Z.id in Hp |- *.
  rewrite lookup_app_r, Nat.sub_diag in Hp by done. simplify_eq/=.
  rewrite reorderPages_to_past_end by done.
  rewrite delete_take_drop, take_app_length.
  by rewrite <-(Nat.add_1_r (length l1)), <-drop_drop, drop_app_length, <-app_assoc.
Qed.

Lemma reorderPages_clamps_witness :
  in_bounds (pages threePages) 0 ∧
  pages threePages !! Z.to_nat 0 = Some page_a ∧
  Z.of_nat (length (pages threePages)) ≤ 7 ∧
  reorderPages 0 7 (pages threePages) = [Some page_b; Some page_c; Some page_a].
Proof.
  assert (H0 : in_bounds (pages threePages) 0) by (unfold in_bounds; simpl; lia).
  assert (H7 : Z.of_nat (length (pages threePages)) ≤ 7) by (simpl; lia).
  split; [exact H0|]. split; [reflexivity|]. split; [exact H7|].
  exact (reorderPages_clamps (pages threePages) 0 7 page_a H0 eq_refl H7).
Defined.

(** C6, refuted as stated: with [toIndex = 5] on a two-page collection the
    call is out of bounds, yet the sequence is not left as it was. *)
Lemma reorderPages_out_of_bounds_changes :
  ¬ (∀ (pages : list PageRecord) (fromIndex toIndex : Z),
       ¬ in_bounds pages fromIndex ∨ ¬ in_bounds pages toIndex →
       reorderPages fromIndex toIndex pages = Some <$> pages).
Proof.
  intros Hrej.
  specialize (Hrej [page_a; page_b] 0 5).
  assert (Hout : ¬ in_bounds [page_a; page_b] 0 ∨ ¬ in_bounds [page_a; page_b] 5)
    by (right; unfold in_bounds; simpl; lia).
  apply Hrej in Hout. vm_compute in Hout. discriminate Hout.
Qed.

(** ** Reordering and deletion leave the records alone *)

Lemma reorderPages_records (fromIndex toIndex : Z) (pages : list PageRecord) :
  records (reorderPages fromIndex toIndex pages) ≡ₚ pages.
Proof.
  rewrite reorderPages_unfold. unfold records.
  set (arr := Some <$> pages).
  pose proof (splice_Permutation arr fromIndex 1 []) as Hrem.
  pose proof (splice_removed_length arr fromIndex []) as Hlen.
  destruct (splice arr fromIndex 1 []) as [rest removed]; cbn [fst snd] in *.
  pose proof (splice_Permutation rest toIndex 0 [mjoin (head removed)]) as Hins.
  rewrite splice_insert_removed, app_nil_r in Hins. rewrite Hins.
  assert (Harr : omap (λ slot, slot) arr = pages).
  { unfold arr. clear. induction pages as [|p pages IH]; [done|]. csimpl. by rewrite IH. }
  rewrite <-Harr, <-Hrem, !omap_app.
  rewrite (comm (++) (omap _ rest)). f_equiv.
  destruct removed as [|slot [|? ?]]; [done| |simpl in Hlen; lia].
  simpl. by destruct slot.
Qed.

(** C9: [reorderPages], whatever its arguments, returns the records it was
    given, each one with all its fields, in some order; [deleteSelected]
    keeps exactly the records whose id is not selected, each one with all
    its fields, in the order they had. *)
Theorem reorder_delete_frame (st : State) (fromIndex toIndex : Z) :
  records (reorderPages fromIndex toIndex (pages st)) ≡ₚ pages st ∧
  pages (deleteSelected st) `sublist_of` pages st ∧
  (∀ p, p ∈ pages (deleteSelected st) ↔ p ∈ pages st ∧ id p ∉ selectedPages st).
Proof.
  split; [apply reorderPages_records|]. split.
  - apply sublist_filter.
  - intros p. unfold deleteSelected; simpl. rewrite list_elem_of_filter. tauto.
Qed.

(** ** Loading *)

Section LoadProperties.
Context `{External}.

Lemma loadPages_prefix (file : File) (b : list Byte.byte) (todo i : nat) (st : State) :
  pages st `prefix_of` pages (loadPages file b todo i st).1.
Proof.
  revert i st. induction todo as [|todo IH]; intros i st; simpl; [done|].
  destruct (getPage b (i + 1)); [|done].
  etrans; [|apply IH]. simpl. by apply prefix_app_r.
Qed.

Lemma loadFile_prefix (file : File) (st : State) :
  pages st `prefix_of` pages (loadFile file st).1.
Proof.
  unfold loadFile. destruct (PDFDocument_parse _); [|done].
  destruct (getDocument _); [|done]. apply loadPages_prefix.
Qed.

(** Loading only appends: what was in the collection stays, in place. *)
Lemma loadPDFs_prefix (files : list File) (st : State) :
  pages st `prefix_of` pages (loadPDFs files st).1.
Proof.
  revert st. induction files as [|file files IH]; intros st; simpl; [done|].
  pose proof (loadFile_prefix file st) as Hfile.
  destruct (loadFile file st) as [st' []]; [|done].
  etrans; [exact Hfile | apply IH].
Qed.

Lemma loadPDFs_app (files1 files2 : list File) (st : State) :
  loadPDFs (files1 ++ files2) st =
    match loadPDFs files1 st with
    | (st1, Completed) => loadPDFs files2 st1
    | (st1, Caught) => (st1, Caught)
    end.
Proof.
  revert st. induction files1 as [|file files1 IH]; intros st; simpl; [done|].
  destruct (loadFile file st) as [st' []]; [apply IH | done].
Qed.

Lemma loadPages_valid (file : File) (b : list Byte.byte) (todo i : nat) (st : State) :
  rotations_valid st → rotations_valid (loadPages file b todo i st).1.
Proof.
  revert i st. induction todo as [|todo IH]; intros i st Hst; simpl; [done|].
  destruct (getPage b (i + 1)); [|done].
  apply IH. unfold rotations_valid in *; simpl.
  apply Forall_app. split; [done|]. apply Forall_singleton.
  unfold valid_rotation; simpl. lia.
Qed.

(** Records are created with rotation 0. *)
Lemma loadPDFs_valid (files : list File) (st : State) :
  rotations_valid st → rotations_valid (loadPDFs files st).1.
Proof.
  revert st. induction files as [|file files IH]; intros st Hst; simpl; [done|].
  assert (Hfile : rotations_valid (loadFile file st).1).
  { unfold loadFile. destruct (PDFDocument_parse _); [|done].
    destruct (getDocument _); [|done]. by apply loadPages_valid. }
  destruct (loadFile file st) as [st' []]; [by apply IH | done].
Qed.

(** A document that does not open leaves the state as it found it. *)
Lemma loadFile_not_opened (file : File) (st : State) :
  PDFDocument_parse (arrayBuffer file) = None ∨ getDocument (arrayBuffer file) = false →
  loadFile file st = (st, Caught).
Proof.
  unfold loadFile. intros [->| ->]; [done|].
  by destruct (PDFDocument_parse _).
Qed.

(** C3 (as the code has it): when a document of the batch does not open
    (pdf-lib's [PDFDocument.load] throws on its bytes, or pdf.js rejects
    them), [loadPDFs] ends in its [catch] with the collection exactly as the
    documents before it left it: no page of the failing document is
    appended, the pages of the documents loaded before it (and everything
    that was there before the batch) remain. *)
Theorem loadPDFs_open_failure (files1 files2 : list File) (file : File)
    (st st1 : State) :
  loadPDFs files1 st = (st1, Completed) →
  PDFDocument_parse (arrayBuffer file) = None ∨ getDocument (arrayBuffer file) = false →
  loadFile file st1 = (st1, Caught) ∧
  loadPDFs (files1 ++ file :: files2) st = (st1, Caught) ∧
  pages st `prefix_of` pages st1.
Proof.
  intros Hbefore Hfail.
  pose proof (loadFile_not_opened file st1 Hfail) as Hfile.
  split; [done|]. split.
  - rewrite loadPDFs_app, Hbefore. simpl. by rewrite Hfile.
  - pose proof (loadPDFs_prefix files1 st) as Hpre. by rewrite Hbefore in Hpre.
Qed.

End LoadProperties.

Lemma loadPDFs_open_failure_witness :
  @loadPDFs toyLibs [twoPages] initial =
    (fst (@loadPDFs toyLibs [twoPages] initial), Completed) ∧
  (@PDFDocument_parse toyLibs (arrayBuffer notPdf) = None ∨
   @getDocument toyLibs (arrayBuffer notPdf) = false) ∧
  length (pages (fst (@loadPDFs toyLibs ([twoPages] ++ notPdf :: [twoPages]) initial)))
    = 2%nat.
Proof.
  assert (Hbefore : @loadPDFs toyLibs [twoPages] initial =
            (fst (@loadPDFs toyLibs [twoPages] initial), Completed))
    by reflexivity.
  assert (Hfail : @PDFDocument_parse toyLibs (arrayBuffer notPdf) = None ∨
                  @getDocument toyLibs (arrayBuffer notPdf) = false)
    by (left; reflexivity).
  split; [exact Hbefore|]. split; [exact Hfail|].
  destruct (@loadPDFs_open_failure toyLibs [twoPages] [twoPages] notPdf initial _
              Hbefore Hfail) as (_ & -> & _).
  reflexivity.
Defined.

(** C3, refuted as stated: pdf-lib counts two pages in the file and pdf.js
    rejects the second one; the load of that document fails, and the record
    of its first page is in the collection all the same. *)
Lemma loadPDFs_partial_document :
  ¬ (∀ (E : External) (file : File) (st : State),
       snd (@loadFile E file st) = Caught →
       pages (fst (@loadFile E file st)) = pages st).
Proof.
  intros Hall.
  specialize (Hall truncatedLibs twoPages initial eq_refl).
  vm_compute in Hall. discriminate Hall.
Qed.

(** ** Export *)

(** *** The map of groups *)

Section MapLemmas.
Context {V : Type}.
Implicit Types (m : list (string * V)) (v : V) (key k : string).

Lemma Map_get_set key k v m :
  Map_get k (Map_set key v m) = if bool_decide (k = key) then Some v else Map_get k m.
Proof.
  induction m as [|[k' w] m IH]; simpl.
  - destruct (decide (k = key)) as [->|Hne].
    + by rewrite !bool_decide_eq_true_2.
    + by rewrite !bool_decide_eq_false_2 by congruence.
  - destruct (decide (k' = key)) as [->|Hk'].
    + rewrite (bool_decide_eq_true_2 (key = key)) by done. simpl.
      destruct (decide (k = key)) as [->|Hne].
      * by rewrite !bool_decide_eq_true_2.
      * by rewrite !bool_decide_eq_false_2 by congruence.
    + rewrite (bool_decide_eq_false_2 (k' = key)) by done. simpl.
      rewrite IH. destruct (decide (k' = k)) as [->|Hne].
      * by rewrite bool_decide_eq_true_2, bool_decide_eq_false_2.
      * by rewrite (bool_decide_eq_false_2 (k' = k)).
Qed.

Lemma Map_get_elem_of key v m : Map_get key m = Some v → (key, v) ∈ m.
Proof.
  induction m as [|[k' w] m IH]; simpl; [done|].
  case_bool_decide as Hk.
  - intros [= ->]. subst. left.
  - intros Hget. right. by apply IH.
Qed.

Lemma elem_of_Map_set key k v w m :
  (k, w) ∈ Map_set key v m → (k = key ∧ w = v) ∨ (k, w) ∈ m.
Proof.
  induction m as [|[k' w'] m IH]; simpl.
  - intros Hin%list_elem_of_singleton. left. by simplify_eq.
  - destruct (bool_decide (k' = key)) eqn:Hk.
    + intros [Heq|Hin]%elem_of_cons.
      * apply bool_decide_eq_true_1 in Hk. left. by simplify_eq.
      * right. by right.
    + intros [Heq|Hin]%elem_of_cons.
      * right. simplify_eq. left.
      * destruct (IH Hin) as [?|?]; [by left|]. right. by right.
Qed.

Lemma Map_set_set key v w m : Map_set key w (Map_set key v m) = Map_set key w m.
Proof.
  induction m as [|[k' w'] m IH]; simpl.
  - by rewrite bool_decide_eq_true_2.
  - destruct (bool_decide (k' = key)) eqn:Hk; simpl; rewrite Hk; [done|].
    by rewrite IH.
Qed.

Lemma Map_has_get key m : Map_has key m = true ↔ is_Some (Map_get key m).
Proof. unfold Map_has. apply bool_decide_eq_true. Qed.

End MapLemmas.

Lemma addToGroup_set (m : list (string * Group.t)) (page : PageRecord) (index : nat) :
  addToGroup m page index = Map_set (sourceKey page) (groupAfter m page index) m.
Proof.
  unfold addToGroup, groupAfter, Map_has.
  destruct (Map_get (sourceKey page) m) as [g|] eqn:Hget; simpl.
  - by rewrite Hget.
  - rewrite Map_get_set, bool_decide_eq_true_2 by done. simpl.
    apply Map_set_set.
Qed.

Lemma addToGroup_get (m : list (string * Group.t)) (page : PageRecord) (index : nat)
    (k : string) :
  Map_get k (addToGroup m page index) =
    if bool_decide (k = sourceKey page) then Some (groupAfter m page index)
    else Map_get k m.
Proof. rewrite addToGroup_set. apply Map_get_set. Qed.

Lemma addToGroup_elem_of (m : list (string * Group.t)) (page : PageRecord) (index : nat)
    (k : string) (g : Group.t) :
  (k, g) ∈ addToGroup m page index →
  (k = sourceKey page ∧ g = groupAfter m page index) ∨ (k, g) ∈ m.
Proof. rewrite addToGroup_set. apply elem_of_Map_set. Qed.

(** What [pagesBySource] holds after the [forEach]: every [{ page, index }]
    of a group is a record of the collection at its own position, filed
    under its own key; the bytes of a group are those of a record with that
    key; and every record is in the group of its key. *)
Lemma groups_sound (es : list (nat * PageRecord)) (k : string) (g : Group.t) :
  (k, g) ∈ foldl (λ m e, addToGroup m e.2 e.1) [] es →
  (∀ p i, (p, i) ∈ Group.pages g → (i, p) ∈ es ∧ sourceKey p = k) ∧
  (∃ i0 p0, (i0, p0) ∈ es ∧ sourceKey p0 = k ∧ Group.bytes g = pdfBytes p0).
Proof.
  revert k g. induction es as [|[index page] es IH] using rev_ind; intros k g.
  - simpl. by intros ?%elem_of_nil.
  - rewrite foldl_snoc. cbn [fst snd].
    set (m := foldl _ [] es) in *.
    intros [[-> ->]|Hin]%addToGroup_elem_of.
    + unfold groupAfter.
      destruct (Map_get (sourceKey page) m) as [g0|] eqn:Hget; simpl.
      * apply Map_get_elem_of, IH in Hget as [Hpages (i0 & p0 & Hin0 & Hk0 & Hb0)].
        split.
        -- intros p i [Hin|Hin%list_elem_of_singleton]%elem_of_app.
           ++ destruct (Hpages p i Hin). split; [|done]. apply elem_of_app. by left.
           ++ simplify_eq. split; [|done]. apply elem_of_app. right. left.
        -- exists i0, p0. split; [|done]. apply elem_of_app. by left.
      * split.
        -- intros p i Hin%list_elem_of_singleton. simplify_eq.
           split; [|done]. apply elem_of_app. right. left.
        -- exists index, page. split; [|done]. apply elem_of_app. right. left.
    + apply IH in Hin as [Hpages (i0 & p0 & Hin0 & Hk0 & Hb0)]. split.
      * intros p i Hin. destruct (Hpages p i Hin). split; [|done].
        apply elem_of_app. by left.
      * exists i0, p0. split; [|done]. apply elem_of_app. by left.
Qed.

Lemma groups_complete (es : list (nat * PageRecord)) (i : nat) (p : PageRecord) :
  (i, p) ∈ es →
  ∃ g, (sourceKey p, g) ∈ foldl (λ m e, addToGroup m e.2 e.1) [] es ∧
       (p, i) ∈ Group.pages g.
Proof.
  intros Hin.
  cut (∃ g, Map_get (sourceKey p) (foldl (λ m e, addToGroup m e.2 e.1) [] es) = Some g ∧
            (p, i) ∈ Group.pages g).
  { intros (g & Hget & Hg). exists g. split; [by apply Map_get_elem_of | done]. }
  revert Hin. induction es as [|[index page] es IH] using rev_ind.
  - by intros ?%elem_of_nil.
  - rewrite foldl_snoc. cbn [fst snd].
    set (m := foldl _ [] es) in *.
    rewrite addToGroup_get. unfold groupAfter.
    intros [Hin|Hin%list_elem_of_singleton]%elem_of_app.
    + destruct (IH Hin) as (g & Hget & Hg).
      case_bool_decide as Hk; [|by exists g].
      rewrite <-Hk, Hget. simpl. eexists. split; [done|]. simpl.
      apply elem_of_app. by left.
    + simplify_eq. rewrite bool_decide_eq_true_2 by done.
      eexists. split; [done|]. simpl. apply elem_of_app. right. left.
Qed.

Lemma elem_of_imap_pair (pages : list PageRecord) (i : nat) (p : PageRecord) :
  (i, p) ∈ imap pair pages ↔ pages !! i = Some p.
Proof.
  rewrite elem_of_lookup_imap. split.
  - by intros (i' & p' & [= -> ->] & Hp).
  - intros Hp. by exists i, p.
Qed.

Lemma pagesBySource_sound (pages : list PageRecord) (k : string) (g : Group.t) :
  (k, g) ∈ pagesBySource pages →
  (∀ p i, (p, i) ∈ Group.pages g → pages !! i = Some p ∧ sourceKey p = k) ∧
  (∃ p0, p0 ∈ pages ∧ sourceKey p0 = k ∧ Group.bytes g = pdfBytes p0).
Proof.
  intros [Hpages (i0 & p0 & Hin0 & Hk0 & Hb0)]%groups_sound. split.
  - intros p i Hin. destruct (Hpages p i Hin) as [Hp Hk].
    by apply elem_of_imap_pair in Hp.
  - exists p0. apply elem_of_imap_pair, list_elem_of_lookup_2 in Hin0. done.
Qed.

Lemma pagesBySource_complete (pages : list PageRecord) (i : nat) (p : PageRecord) :
  pages !! i = Some p →
  ∃ g, (sourceKey p, g) ∈ pagesBySource pages ∧ (p, i) ∈ Group.pages g.
Proof. intros Hp. by apply groups_complete, elem_of_imap_pair. Qed.

(** *** Assignment to [copiedPages] *)

Section Assign.
Context {A : Type}.
Implicit Types (arr : list (option A)) (x : A).

Lemma length_assign arr (i : nat) x :
  length (assign arr i x) = (length arr `max` S i)%nat.
Proof.
  unfold assign. case_bool_decide as Hi.
  - rewrite length_insert. lia.
  - rewrite !length_app, length_replicate. simpl. lia.
Qed.

Lemma lookup_assign_eq arr (i : nat) x : assign arr i x !! i = Some (Some x).
Proof.
  unfold assign. case_bool_decide as Hi.
  - by apply list_lookup_insert_eq.
  - rewrite lookup_app_r by lia.
    rewrite lookup_app_r by (rewrite length_replicate; lia).
    rewrite length_replicate. by rewrite Nat.sub_diag.
Qed.

Lemma lookup_assign_ne arr (i j : nat) x (y : A) :
  j ≠ i → assign arr i x !! j = Some (Some y) ↔ arr !! j = Some (Some y).
Proof.
  intros Hne. unfold assign. case_bool_decide as Hi.
  - by rewrite list_lookup_insert_ne.
  - destruct (decide (j < length arr)%nat) as [Hj|Hj].
    + by rewrite lookup_app_l.
    + rewrite lookup_app_r by lia.
      rewrite (lookup_ge_None_2 arr j) by lia.
      destruct (decide (j < i)%nat).
      * rewrite lookup_app_l by (rewrite length_replicate; lia).
        rewrite lookup_replicate_2 by lia. done.
      * rewrite lookup_app_r by (rewrite length_replicate; lia).
        rewrite length_replicate.
        rewrite lookup_ge_None_2 by (simpl; lia). done.
Qed.

End Assign.

(** *** The copy loops *)

Section ExportProperties.
Context `{External}.

Lemma copyPage_exported (b : list Byte.byte) (srcDoc : PDFDocument) (page : PageRecord)
    (copiedPage rotated : PDFPage) :
  PDFDocument_load b = Some srcDoc →
  copyPage srcDoc (sourcePageIndex page) = Some copiedPage →
  (if bool_decide (rotation page ≠ 0)
   then setRotation copiedPage (angle copiedPage + rotation page)
   else Some copiedPage) = Some rotated →
  exported b page rotated.
Proof.
  unfold PDFDocument_load, copyPage, exported, existingRotation.
  destruct (PDFDocument_parse b) as [angles|]; [|done]. simpl.
  intros [= <-]. simpl.
  destruct (angles !! sourcePageIndex page) as [a|]; [|done]. simpl.
  intros [= <-]. unfold setRotation. simpl.
  exists a. split; [done|].
  case_bool_decide as Hrot.
  - case_bool_decide; [|done]. by simplify_eq.
  - by simplify_eq.
Qed.

Lemma copied_ok_assign (pages : list PageRecord) (copiedPages : list (option PDFPage))
    (page : PageRecord) (index : nat) (b : list Byte.byte) (q : PDFPage) :
  copied_ok pages copiedPages →
  pages !! index = Some page → group_bytes pages page b → exported b page q →
  copied_ok pages (assign copiedPages index q).
Proof.
  intros [Hlen Hslots] Hpage Hb Hq. split.
  - rewrite length_assign. apply lookup_lt_Some in Hpage. lia.
  - intros i q' Hi. destruct (decide (i = index)) as [->|Hne].
    + rewrite lookup_assign_eq in Hi. simplify_eq. eauto.
    + apply lookup_assign_ne in Hi; [|done]. eauto.
Qed.

Lemma filled_assign (copiedPages : list (option PDFPage)) (index i : nat) (q : PDFPage) :
  i = index ∨ filled copiedPages i → filled (assign copiedPages index q) i.
Proof.
  unfold filled. destruct (decide (i = index)) as [->|Hne].
  - intros _. exists q. apply lookup_assign_eq.
  - intros [?|[q' Hq']]; [done|]. exists q'. by apply lookup_assign_ne.
Qed.

Lemma copyGroup_ok (pages : list PageRecord) (b : list Byte.byte) (srcDoc : PDFDocument)
    (entries : list (PageRecord * nat)) (copiedPages copiedPages' : list (option PDFPage)) :
  PDFDocument_load b = Some srcDoc →
  (∀ p i, (p, i) ∈ entries → pages !! i = Some p ∧ group_bytes pages p b) →
  copied_ok pages copiedPages →
  copyGroup srcDoc entries copiedPages = Some copiedPages' →
  copied_ok pages copiedPages' ∧
  (∀ i, filled copiedPages i → filled copiedPages' i) ∧
  (∀ p i, (p, i) ∈ entries → filled copiedPages' i).
Proof.
  intros Hload. revert copiedPages.
  induction entries as [|[page index] entries IH]; intros copiedPages Hentries Hok; simpl.
  - intros [= <-]. split; [done|]. split; [done|]. by intros p i ?%elem_of_nil.
  - destruct (copyPage srcDoc (sourcePageIndex page)) as [copiedPage|] eqn:Hcopy;
      [|done]. simpl.
    destruct (if bool_decide (rotation page ≠ 0) then _ else _) as [rotated|] eqn:Hrot;
      [|done]. simpl.
    intros Hrest.
    destruct (Hentries page index) as [Hpage Hb]; [left|].
    pose proof (copyPage_exported _ _ _ _ _ Hload Hcopy Hrot) as Hq.
    destruct (IH (assign copiedPages index rotated)) as (Hok' & Hkeep & Hdone).
    + intros p i Hin. apply Hentries. by right.
    + by eapply copied_ok_assign.
    + done.
    + split; [done|]. split.
      * intros i Hi. apply Hkeep, filled_assign. by right.
      * intros p i [[= -> ->]|Hin]%elem_of_cons.
        -- apply Hkeep, filled_assign. by left.
        -- by eapply Hdone.
Qed.

Lemma copySources_ok (pages : list PageRecord) (groups : list (string * Group.t))
    (copiedPages copiedPages' : list (option PDFPage)) :
  (∀ k g, (k, g) ∈ groups → (k, g) ∈ pagesBySource pages) →
  copied_ok pages copiedPages →
  copySources groups copiedPages = Some copiedPages' →
  copied_ok pages copiedPages' ∧
  (∀ i, filled copiedPages i → filled copiedPages' i) ∧
  (∀ k g p i, (k, g) ∈ groups → (p, i) ∈ Group.pages g → filled copiedPages' i).
Proof.
  revert copiedPages.
  induction groups as [|[key data] groups IH]; intros copiedPages Hgroups Hok; simpl.
  - intros [= <-]. split; [done|]. split; [done|]. by intros k g p i ?%elem_of_nil.
  - destruct (PDFDocument_load (Group.bytes data)) as [srcDoc|] eqn:Hload; [|done].
    simpl.
    destruct (copyGroup srcDoc (Group.pages data) copiedPages) as [copied1|] eqn:Hgroup;
      [|done]. simpl.
    intros Hrest.
    destruct (pagesBySource_sound pages key data) as [Hpages (p0 & Hp0 & Hk0 & Hb0)];
      [apply Hgroups; left|].
    destruct (copyGroup_ok pages (Group.bytes data) srcDoc (Group.pages data)
                copiedPages copied1 Hload) as (Hok1 & Hkeep1 & Hdone1); [|done|done|].
    { intros p i Hin. destruct (Hpages p i Hin) as [Hp Hk]. split; [done|].
      exists p0. split; [done|]. split; [congruence | done]. }
    destruct (IH copied1) as (Hok' & Hkeep & Hdone); [|done|done|].
    { intros k g Hin. apply Hgroups. by right. }
    split; [done|]. split; [by auto|].
    intros k g p i [[= -> ->]|Hin]%elem_of_cons Hp.
    + by eapply Hkeep, Hdone1.
    + by eapply Hdone.
Qed.

Lemma addPage_all (copiedPages : list (option PDFPage)) (doc : list PDFPage) :
  foldl (λ doc page, addPage page doc) doc copiedPages
    = doc ++ (default blankPage <$> copiedPages).
Proof.
  revert doc. induction copiedPages as [|page copiedPages IH]; intros doc; simpl.
  - by rewrite app_nil_r.
  - rewrite IH. unfold addPage. by rewrite <-app_assoc.
Qed.

(** What a saved export holds, page by page: position [i] of the merged
    document is the page made for the record at position [i] of the
    collection, copied at that record's [sourcePageIndex] out of the bytes
    opened for the record's group. *)
Lemma downloadMerged_saved (pages : list PageRecord) (mergedPdf : list PDFPage) :
  downloadMerged pages = Saved mergedPdf →
  Forall2 (λ p q, ∃ b, group_bytes pages p b ∧ exported b p q) pages mergedPdf.
Proof.
  unfold downloadMerged. case_bool_decide as Hempty; [done|].
  destruct (copySources (pagesBySource pages) []) as [copiedPages|] eqn:Hcopy; [|done].
  intros [= <-]. rewrite addPage_all, app_nil_l.
  destruct (copySources_ok pages (pagesBySource pages) [] copiedPages)
    as ([Hlen Hslots] & _ & Hdone); [done| |done|].
  { split; [simpl; lia|]. by intros i q ?. }
  apply Forall2_lookup. intros i. rewrite list_lookup_fmap.
  destruct (pages !! i) as [p|] eqn:Hp.
  - destruct (pagesBySource_complete pages i p Hp) as (g & Hg & Hin).
    destruct (Hdone _ _ _ _ Hg Hin) as [q Hq]. rewrite Hq. simpl. constructor.
    destruct (Hslots i q Hq) as (p' & b & Hp' & Hb & Hexp). simplify_eq. eauto.
  - apply lookup_ge_None in Hp.
    rewrite (lookup_ge_None_2 copiedPages i) by lia. constructor.
Qed.

(** Without two files sharing name and length, the bytes opened for a
    record are its own: every page of the merged document is the page of
    its record, copied from the record's own document. *)
Lemma downloadMerged_faithful (pages : list PageRecord) (mergedPdf : list PDFPage) :
  keys_identify pages →
  downloadMerged pages = Saved mergedPdf →
  Forall2 (λ p q, exported (pdfBytes p) p q) pages mergedPdf.
Proof.
  intros Hkeys Hsaved%downloadMerged_saved.
  apply Forall2_lookup. intros i.
  apply Forall2_lookup with (i := i) in Hsaved.
  destruct (pages !! i) as [p|] eqn:Hp; inversion Hsaved as [? q Hq|]; subst;
    constructor.
  destruct Hq as (b & (p0 & Hp0 & Hk & ->) & Hexp).
  rewrite (Hkeys p p0) in Hexp; [done| |done|done].
  by eapply list_elem_of_lookup_2.
Qed.




(** Two records under one key: the group is opened on the bytes of the
    first, and the page emitted for the second is copied out of them. *)
Lemma downloadMerged_shared_key (p1 p2 : PageRecord) (mergedPdf : list PDFPage) :
  sourceKey p2 = sourceKey p1 →
  downloadMerged [p1; p2] = Saved mergedPdf →
  ∃ q, mergedPdf !! 1%nat = Some q ∧ origin q = Some (pdfBytes p1, sourcePageIndex p2).
Proof.
  intros Hkey Hsaved.
  assert (Hgroups : pagesBySource [p1; p2] =
            [(sourceKey p1, {| Group.bytes := pdfBytes p1;
                               Group.pages := [(p1, 0%nat); (p2, 1%nat)] |})]).
  { change (pagesBySource [p1; p2])
      with (addToGroup (addToGroup [] p1 0) p2 1).
    rewrite !addToGroup_set. unfold groupAfter.
    cbn [Map_get Map_set from_option]. rewrite Hkey.
    cbn [Map_get Map_set]. rewrite !bool_decide_eq_true_2 by done.
    by cbn [from_option Group.bytes Group.pages app]. }
  unfold downloadMerged in Hsaved. rewrite Hgroups in Hsaved.
  cbn [length bool_decide decide_rel copySources Group.bytes Group.pages copyGroup]
    in Hsaved.
  rewrite bool_decide_eq_false_2 in Hsaved by done.
  destruct (PDFDocument_load (pdfBytes p1)) as [srcDoc|] eqn:Hload; [|done].
  assert (Hbytes : docBytes srcDoc = pdfBytes p1).
  { unfold PDFDocument_load in Hload.
    destruct (PDFDocument_parse (pdfBytes p1)); [|done]. by simplify_eq/=. }
  cbn [mbind option_bind] in Hsaved.
  destruct (copyPage srcDoc (sourcePageIndex p1)) as [c1|]; [|done].
  cbn [mbind option_bind] in Hsaved.
  destruct (if bool_decide (rotation p1 ≠ 0) then _ else _) as [q1|]; [|done].
  cbn [mbind option_bind] in Hsaved.
  destruct (copyPage srcDoc (sourcePageIndex p2)) as [c2|] eqn:Hc2; [|done].
  cbn [mbind option_bind] in Hsaved.
  destruct (if bool_decide (rotation p2 ≠ 0) then _ else _) as [q2|] eqn:Hq2; [|done].
  cbn [mbind option_bind] in Hsaved.
  injection Hsaved as <-. exists q2. split; [done|].
  unfold copyPage in Hc2. destruct (docAngles srcDoc !! sourcePageIndex p2); [|done].
  simpl in Hc2. injection Hc2 as <-. rewrite Hbytes in Hq2.
  unfold setRotation in Hq2. simpl in Hq2.
  repeat case_bool_decide; by simplify_eq/=.
Qed.


End ExportProperties.



(** C1, at a failing input: two files named [scan.pdf], three bytes each,
    are loaded one after the other and exported. Both records get the key
    [scan.pdf-3], the group keeps the bytes of the first file, and the page
    emitted for the second record is copied from the first file: the merged
    document holds the unrotated page of [scanA] twice and never the rotated
    page of [scanB]. *)
Theorem downloadMerged_same_name_same_length :
  @loadPDFs toyLibs [scanA; scanB] initial =
    ({| pages := [mkPage "0" "scan.pdf" 0 (arrayBuffer scanA) 0;
                  mkPage "1" "scan.pdf" 0 (arrayBuffer scanB) 0];
        selectedPages := ∅; uuidCalls := 2 |}, Completed) ∧
  sourceKey (mkPage "0" "scan.pdf" 0 (arrayBuffer scanA) 0) = "scan.pdf-3" ∧
  sourceKey (mkPage "1" "scan.pdf" 0 (arrayBuffer scanB) 0) = "scan.pdf-3" ∧
  @existingRotation toyLibs (arrayBuffer scanB) 0 = Some 90 ∧
  @downloadMerged toyLibs (pages (fst (@loadPDFs toyLibs [scanA; scanB] initial))) =
    Saved [{| origin := Some (arrayBuffer scanA, 0%nat); angle := 0 |};
           {| origin := Some (arrayBuffer scanA, 0%nat); angle := 0 |}].
Proof. repeat split; vm_compute; reflexivity. Qed.

(** * Further properties of the code *)

(** ** Selection *)

(** X1: selecting and deselecting a card are inverse to each other:
    two [toggleSelection] calls on the same id give back the state. *)
Theorem toggleSelection_twice (pageId : string) (st : State) :
  toggleSelection pageId (toggleSelection pageId st) = st.
Proof.
  destruct st as [ps sel n]. unfold toggleSelection; simpl. f_equal.
  destruct (decide (pageId ∈ sel)) as [Hin|Hout].
  - rewrite (bool_decide_eq_true_2 _ Hin).
    rewrite bool_decide_eq_false_2 by set_solver.
    apply set_eq. intros x. destruct (decide (x = pageId)); set_solver.
  - rewrite (bool_decide_eq_false_2 _ Hout).
    rewrite bool_decide_eq_true_2 by set_solver.
    set_solver.
Qed.

Lemma selectAll_fold (ps : list PageRecord) (sel : gset string) :
  foldl (λ s page, s ∪ {[id page]}) sel ps = sel ∪ list_to_set (id <$> ps).
Proof.
  revert sel. induction ps as [|p ps IH]; intros sel; simpl.
  - set_solver.
  - rewrite IH. set_solver.
Qed.

(** X2: [selectAll] adds the id of every record to the selection and
    removes none; on a state without dangling selection the selection
    becomes exactly the set of ids of the collection. The collection is not
    touched. *)
Theorem selectAll_selects_all (st : State) :
  pages (selectAll st) = pages st ∧
  selectedPages (selectAll st) = selectedPages st ∪ liveIds st ∧
  (no_dangling st → selectedPages (selectAll st) = liveIds st).
Proof.
  unfold selectAll, no_dangling, liveIds; simpl. rewrite selectAll_fold.
  split; [done|]. split; [done|]. set_solver.
Qed.

Lemma filter_keeps_all {A} (P : A → Prop) `{∀ x, Decision (P x)} (l : list A) :
  (∀ x, x ∈ l → P x) ↔ filter P l = l.
Proof.
  split.
  - induction l as [|x l IH]; intros Hall; [done|].
    rewrite filter_cons_True by (apply Hall; left).
    f_equal. apply IH. intros y Hy. apply Hall. by right.
  - intros Heq x Hx. rewrite <-Heq in Hx. by apply list_elem_of_filter in Hx as [? _].
Qed.

Lemma filter_drops_all {A} (P : A → Prop) `{∀ x, Decision (P x)} (l : list A) :
  (∀ x, x ∈ l → ¬ P x) → filter P l = [].
Proof.
  induction l as [|x l IH]; intros Hall; [done|].
  rewrite filter_cons_False by (apply Hall; left).
  apply IH. intros y Hy. apply Hall. by right.
Qed.

(** X3: select all, then delete: the collection and the selection are
    both empty. *)
Theorem selectAll_deleteSelected_empties (st : State) :
  pages (deleteSelected (selectAll st)) = [] ∧
  selectedPages (deleteSelected (selectAll st)) = ∅.
Proof.
  split; [|done]. unfold deleteSelected, selectAll; simpl.
  rewrite selectAll_fold. apply filter_drops_all.
  intros p Hp Hout. apply Hout, elem_of_union. right.
  apply elem_of_list_to_set, list_elem_of_fmap. by exists p.
Qed.

(** X4: [deleteSelected] leaves the collection as it is exactly when no
    selected id is the id of a record; in particular with an empty
    selection. *)
Theorem deleteSelected_unchanged_iff (st : State) :
  pages (deleteSelected st) = pages st ↔ selectedPages st ## liveIds st.
Proof.
  unfold deleteSelected; simpl. rewrite <-filter_keeps_all. split.
  - intros Hall x Hsel [p [Hp <-]]%elem_of_liveIds. by apply (Hall p).
  - intros Hdisj p Hp Hsel. apply (Hdisj (id p)); [done|].
    apply elem_of_liveIds. by exists p.
Qed.

(** X5: after [deleteSelected] the ids of the collection are the former
    ids minus the selected ones (every record carrying a selected id is
    gone), and a second [deleteSelected] changes nothing. *)
Theorem deleteSelected_ids (st : State) :
  liveIds (deleteSelected st) = liveIds st ∖ selectedPages st ∧
  deleteSelected (deleteSelected st) = deleteSelected st.
Proof.
  split.
  - apply set_eq. intros x.
    rewrite elem_of_difference, !elem_of_liveIds. unfold deleteSelected; simpl.
    split.
    + intros (p & [Hsel Hp]%list_elem_of_filter & <-). split; [by exists p | done].
    + intros [(p & Hp & <-) Hsel]. exists p. split; [|done].
      by apply list_elem_of_filter.
  - unfold deleteSelected; simpl. f_equal.
    apply filter_keeps_all. intros p _. set_solver.
Qed.

(** X6: rotating the selection and then deleting it is the same as
    deleting it at once: the rotation of what is deleted leaves no trace on
    the records that stay. *)
Theorem rotateSelected_then_deleteSelected (st : State) :
  deleteSelected (rotateSelected st) = deleteSelected st.
Proof.
  unfold deleteSelected. rewrite rotateSelected_pages. simpl. f_equal.
  induction (pages st) as [|p ps IH]; [done|]. rewrite fmap_cons.
  destruct (decide (id p ∈ selectedPages st)) as [Hsel|Hsel].
  - rewrite (bool_decide_eq_true_2 _ Hsel).
    rewrite !filter_cons_False by (simpl; tauto). exact IH.
  - rewrite (bool_decide_eq_false_2 _ Hsel).
    rewrite !filter_cons_True by done. by rewrite IH.
Qed.

Lemma rotatePage_iter (n : nat) (p : PageRecord) :
  valid_rotation (rotation p) →
  same_page p (Nat.iter n rotatePage p) ∧
  rotation (Nat.iter n rotatePage p) = (rotation p + 90 * Z.of_nat n) `mod` 360.
Proof.
  unfold valid_rotation. intros Hr. induction n as [|n [Hsame IH]].
  - simpl. split; [by unfold same_page|].
    rewrite Z.add_0_r. symmetry. by apply Z.mod_small.
  - rewrite Nat.iter_succ. split.
    + unfold same_page in *. simpl. tauto.
    + simpl rotation. rewrite IH.
      rewrite Z.rem_mod_nonneg.
      * rewrite Zplus_mod_idemp_l. f_equal. lia.
      * pose proof (Z.mod_pos_bound (rotation p + 90 * Z.of_nat n) 360). lia.
      * lia.
Qed.

(** X7: after [n] presses of the rotate button with the same selection, a
    selected record is the same record with rotation
    [(rotation + 90 n) mod 360]. *)
Theorem rotateSelected_n_times (n : nat) (st : State) (i : nat) (p : PageRecord) :
  pages st !! i = Some p →
  id p ∈ selectedPages st →
  valid_rotation (rotation p) →
  ∃ q, pages (Nat.iter n rotateSelected st) !! i = Some q ∧ same_page p q ∧
       rotation q = (rotation p + 90 * Z.of_nat n) `mod` 360.
Proof.
  intros Hp Hsel Hr.
  destruct (rotateSelected_iter_lookup n st i p Hp) as [Hn _].
  rewrite bool_decide_eq_true_2 in Hn by done.
  exists (Nat.iter n rotatePage p). split; [done|]. by apply rotatePage_iter.
Qed.

Lemma rotateSelected_n_times_witness :
  pages threePages !! 0%nat = Some page_a ∧
  id page_a ∈ selectedPages threePages ∧
  valid_rotation (rotation page_a) ∧
  ∃ q, pages (Nat.iter 7 rotateSelected threePages) !! 0%nat = Some q ∧
       same_page page_a q ∧ rotation q = (rotation page_a + 90 * 7) `mod` 360.
Proof.
  assert (Hsel : id page_a ∈ selectedPages threePages) by (simpl; set_solver).
  assert (Hvalid : valid_rotation (rotation page_a))
    by (unfold valid_rotation; simpl; lia).
  split; [reflexivity|]. split; [exact Hsel|]. split; [exact Hvalid|].
  exact (rotateSelected_n_times 7 threePages 0 page_a eq_refl Hsel Hvalid).
Defined.

(** ** Reordering *)

Lemma splice_insert_at {A} (arr : list A) (start : Z) (y : A) :
  splice arr start 0 [y] =
    (take (actualStart (length arr) start) arr ++
       y :: drop (actualStart (length arr) start) arr, []).
Proof.
  unfold splice.
  pose proof (actualStart_le (length arr) start).
  replace (Z.to_nat _) with 0%nat by lia.
  by rewrite Nat.add_0_r, take_0.
Qed.

Lemma reorderPages_from_inside (l1 l2 : list PageRecord) (p : PageRecord) (toIndex : Z) :
  reorderPages (Z.of_nat (length l1)) toIndex (l1 ++ p :: l2) =
    Some <$> (take (actualStart (length (l1 ++ l2)) toIndex) (l1 ++ l2) ++
              p :: drop (actualStart (length (l1 ++ l2)) toIndex) (l1 ++ l2)).
Proof.
  rewrite reorderPages_unfold, fmap_app, fmap_cons.
  rewrite <-(length_fmap Some l1), splice_remove. cbn [fst snd].
  change (mjoin (head [Some p])) with (Some p).
  rewrite splice_insert_at. cbn [fst].
  rewrite <-fmap_app, length_fmap.
  rewrite <-fmap_take, <-fmap_drop.
  by rewrite (fmap_app Some (take _ _)).
Qed.

Lemma reorderPages_in_bounds (pages : list PageRecord) (i j : Z) :
  in_bounds pages i → in_bounds pages j →
  ∃ pages', reorderPages i j pages = Some <$> pages' ∧
            length pages' = length pages ∧
            pages' !! Z.to_nat j = pages !! Z.to_nat i ∧
            delete (Z.to_nat j) pages' = delete (Z.to_nat i) pages.
Proof.
  intros Hi Hj.
  destruct (in_bounds_split _ _ Hi) as (l1 & p & l2 & -> & ->).
  destruct Hj as [Hj0 Hj]. rewrite length_app in Hj; simpl in Hj.
  set (rest := l1 ++ l2).
  assert (Hlen : (Z.to_nat j ≤ length rest)%nat)
    by (unfold rest; rewrite length_app; lia).
  assert (Hrest : l1 ++ l2 = take (Z.to_nat j) rest ++ drop (Z.to_nat j) rest)
    by (by rewrite take_drop).
  assert (Hj' : length (take (Z.to_nat j) rest) = Z.to_nat j)
    by (rewrite length_take; lia).
  exists (take (Z.to_nat j) rest ++ p :: drop (Z.to_nat j) rest).
  split; [|split; [|split]].
  - replace j with (Z.of_nat (length (take (Z.to_nat j) rest))) at 1 by lia.
    by apply reorderPages_move.
  - rewrite !length_app. simpl. rewrite length_take, length_drop.
    unfold rest. rewrite length_app. lia.
  - rewrite Nat2Z.id. rewrite <-Hj' at 1. by rewrite !list_lookup_middle.
  - rewrite Nat2Z.id. rewrite <-Hj' at 1. by rewrite !delete_middle.
Qed.


(** X8: for indices [i] and [j] of the collection, [reorderPages(i, j)]
    is a move: the result is a collection of the same length (no empty
    slot), the record that was at [i] is at [j], and the other records are
    in the order they had. *)
Theorem reorderPages_moves (pages : list PageRecord) (i j : Z) :
  in_bounds pages i → in_bounds pages j →
  ∃ pages', reorderPages i j pages = Some <$> pages' ∧
            length pages' = length pages ∧
            pages' !! Z.to_nat j = pages !! Z.to_nat i ∧
            delete (Z.to_nat j) pages' = delete (Z.to_nat i) pages.
Proof. apply reorderPages_in_bounds. Qed.

Lemma reorderPages_moves_witness :
  in_bounds (pages threePages) 2 ∧ in_bounds (pages threePages) 0 ∧
  ∃ pages', reorderPages 2 0 (pages threePages) = Some <$> pages' ∧
            length pages' = length (pages threePages) ∧
            pages' !! Z.to_nat 0 = pages threePages !! Z.to_nat 2 ∧
            delete (Z.to_nat 0) pages' = delete (Z.to_nat 2) (pages threePages).
Proof.
  assert (H2 : in_bounds (pages threePages) 2) by (unfold in_bounds; simpl; lia).
  assert (H0 : in_bounds (pages threePages) 0) by (unfold in_bounds; simpl; lia).
  split; [exact H2|]. split; [exact H0|].
  exact (reorderPages_moves (pages threePages) 2 0 H2 H0).
Defined.

(** X9: [reorderPages(i, i)] on an index of the collection gives the
    collection back (the [drop] handler does not even call it then). *)
Theorem reorderPages_same_index (pages : list PageRecord) (i : Z) :
  in_bounds pages i → reorderPages i i pages = Some <$> pages.
Proof.
  intros Hi. destruct (in_bounds_split _ _ Hi) as (l1 & p & l2 & -> & ->).
  by apply reorderPages_move.
Qed.

Lemma reorderPages_same_index_witness :
  in_bounds (pages threePages) 1 ∧
  reorderPages 1 1 (pages threePages) = Some <$> pages threePages.
Proof.
  assert (H1 : in_bounds (pages threePages) 1) by (unfold in_bounds; simpl; lia).
  split; [exact H1 | exact (reorderPages_same_index (pages threePages) 1 H1)].
Defined.

(** X10: with [fromIndex] in bounds, whatever [toIndex] is (past the end,
    negative), [reorderPages] loses nothing and makes no empty slot: the
    result is a rearrangement of the collection, with the moved record at
    the position [splice] computes from [toIndex] on the remaining
    [length - 1] records (clamped to the end, counted from the end when
    negative, clamped to the front). *)
Theorem reorderPages_any_target (pages : list PageRecord) (fromIndex toIndex : Z) :
  in_bounds pages fromIndex →
  ∃ pages', reorderPages fromIndex toIndex pages = Some <$> pages' ∧
            pages' ≡ₚ pages ∧
            pages' !! actualStart (length pages - 1) toIndex
              = pages !! Z.to_nat fromIndex.
Proof.
  intros Hi. destruct (in_bounds_split _ _ Hi) as (l1 & p & l2 & -> & ->).
  rewrite reorderPages_from_inside.
  replace (length (l1 ++ p :: l2) - 1)%nat with (length (l1 ++ l2))
    by (rewrite !length_app; simpl; lia).
  set (rest := l1 ++ l2). set (t := actualStart (length rest) toIndex).
  pose proof (actualStart_le (length rest) toIndex) as Ht. fold t in Ht.
  eexists. split; [done|]. split.
  - rewrite <-Permutation_middle, take_drop. unfold rest.
    by rewrite <-Permutation_middle.
  - rewrite Nat2Z.id, (list_lookup_middle l1) by done.
    apply list_lookup_middle. rewrite length_take. lia.
Qed.

Lemma reorderPages_any_target_witness :
  in_bounds (pages threePages) 0 ∧
  ∃ pages', reorderPages 0 (-1) (pages threePages) = Some <$> pages' ∧
            pages' ≡ₚ pages threePages ∧
            pages' !! actualStart (length (pages threePages) - 1) (-1)
              = pages threePages !! Z.to_nat 0.
Proof.
  assert (H0 : in_bounds (pages threePages) 0) by (unfold in_bounds; simpl; lia).
  split; [exact H0 | exact (reorderPages_any_target (pages threePages) 0 (-1) H0)].
Defined.

(** X11: with [fromIndex] at or past the end nothing is removed, and the
    [undefined] that the destructuring yields is inserted at the position
    [splice] computes from [toIndex]: the array is one longer, holds every
    record in its old order, and has an empty slot. *)
Theorem reorderPages_from_outside (pages : list PageRecord) (fromIndex toIndex : Z) :
  Z.of_nat (length pages) ≤ fromIndex →
  reorderPages fromIndex toIndex pages =
    (Some <$> take (actualStart (length pages) toIndex) pages) ++
    None :: (Some <$> drop (actualStart (length pages) toIndex) pages) ∧
  length (reorderPages fromIndex toIndex pages) = S (length pages) ∧
  records (reorderPages fromIndex toIndex pages) = pages.
Proof.
  intros Hfrom.
  assert (Heq : reorderPages fromIndex toIndex pages =
    (Some <$> take (actualStart (length pages) toIndex) pages) ++
    None :: (Some <$> drop (actualStart (length pages) toIndex) pages)).
  { rewrite reorderPages_unfold.
    rewrite splice_remove_nothing by (by rewrite length_fmap). cbn [fst snd].
    change (mjoin (head [])) with (@None PageRecord).
    rewrite splice_insert_at. cbn [fst].
    by rewrite length_fmap, fmap_take, fmap_drop. }
  assert (Hrec : ∀ l : list PageRecord, records (Some <$> l) = l).
  { unfold records. induction l as [|x l IH]; [done|]. csimpl. by rewrite IH. }
  split; [exact Heq|]. rewrite Heq. split.
  - rewrite length_app. simpl. rewrite !length_fmap, length_take, length_drop.
    pose proof (actualStart_le (length pages) toIndex). lia.
  - unfold records in *. rewrite omap_app. csimpl.
    by rewrite !Hrec, take_drop.
Qed.

Lemma reorderPages_from_outside_witness :
  Z.of_nat (length (pages threePages)) ≤ 3 ∧
  reorderPages 3 1 (pages threePages) =
    [Some page_a; None; Some page_b; Some page_c].
Proof.
  assert (H3 : Z.of_nat (length (pages threePages)) ≤ 3) by (simpl; lia).
  split; [exact H3|].
  destruct (reorderPages_from_outside (pages threePages) 3 1 H3) as [-> _].
  reflexivity.
Defined.

(** ** Loading *)

Section LoadMore.
Context `{External}.

Lemma loadPages_appends (file : File) (b : list Byte.byte) (todo i : nat) (st : State) :
  ∃ new,
    pages (loadPages file b todo i st).1 = pages st ++ new ∧
    selectedPages (loadPages file b todo i st).1 = selectedPages st ∧
    uuidCalls (loadPages file b todo i st).1 = (uuidCalls st + length new)%nat ∧
    sourcePageIndex <$> new = seq i (length new) ∧
    id <$> new = randomUUID <$> seq (uuidCalls st) (length new) ∧
    Forall (λ p, sourceFile p = name file ∧ pdfBytes p = b ∧ rotation p = 0 ∧
                 getPage b (sourcePageIndex p + 1) = Some (pdfJsPage p)) new ∧
    match (loadPages file b todo i st).2 with
    | Completed => length new = todo
    | Caught => (length new < todo)%nat ∧ getPage b (i + length new + 1) = None
    end.
Proof.
  revert i st. induction todo as [|todo IH]; intros i st; simpl.
  - exists []. simpl. rewrite app_nil_r, Nat.add_0_r. by repeat split.
  - destruct (getPage b (i + 1)) as [pdfJsPage|] eqn:Hget.
    + set (r := newRecord file b i pdfJsPage st).
      set (st1 := {| pages := pages st ++ [r]; selectedPages := selectedPages st;
                     uuidCalls := S (uuidCalls st) |}).
      destruct (IH (S i) st1) as (new & Hpages & Hsel & Huuid & Hidx & Hids & Hall & Hout).
      exists (r :: new). rewrite Hpages, Hsel, Huuid. csimpl.
      rewrite <-app_assoc, Hidx, Hids. repeat split; try done; try lia.
      * constructor; [|done]. by repeat split.
      * destruct (loadPages file b todo (S i) st1).2; [lia|].
        destruct Hout as [Hlt Hnone]. split; [lia|].
        by replace (i + S (length new) + 1)%nat with (S i + length new + 1)%nat by lia.
    + exists []. simpl. rewrite app_nil_r, !Nat.add_0_r.
      repeat split; try done. lia.
Qed.

Lemma loadFile_new_records (file : File) (st : State) :
  ∃ new,
    pages (loadFile file st).1 = pages st ++ new ∧
    selectedPages (loadFile file st).1 = selectedPages st ∧
    uuidCalls (loadFile file st).1 = (uuidCalls st + length new)%nat ∧
    sourcePageIndex <$> new = seq 0 (length new) ∧
    id <$> new = randomUUID <$> seq (uuidCalls st) (length new) ∧
    Forall (λ p, sourceFile p = name file ∧ pdfBytes p = arrayBuffer file ∧
                 rotation p = 0 ∧
                 getPage (arrayBuffer file) (sourcePageIndex p + 1) = Some (pdfJsPage p))
      new ∧
    ((loadFile file st).2 = Completed ↔
       ∃ angles, PDFDocument_parse (arrayBuffer file) = Some angles ∧
                 getDocument (arrayBuffer file) = true ∧ length new = length angles).
Proof.
  unfold loadFile.
  destruct (PDFDocument_parse (arrayBuffer file)) as [angles|] eqn:Hparse.
  - destruct (getDocument (arrayBuffer file)) eqn:Hopen.
    + destruct (loadPages_appends file (arrayBuffer file) (length angles) 0 st)
        as (new & Hpages & Hsel & Huuid & Hidx & Hids & Hall & Hout).
      exists new. repeat split; try done.
      * intros Hdone. rewrite Hdone in Hout. by exists angles.
      * intros (angles' & [= <-] & _ & Hlen).
        destruct (loadPages file (arrayBuffer file) (length angles) 0 st).2; [done|].
        lia.
    + exists []. simpl. rewrite app_nil_r, Nat.add_0_r. repeat split; try done.
      by intros (? & _ & ? & _).
  - exists []. simpl. rewrite app_nil_r, Nat.add_0_r. repeat split; try done.
    by intros (? & ? & _).
Qed.


(** X12: what one document adds. [loadFile] appends to the collection,
    and only appends: the records of pages 0, 1, ... of the file, in page
    order. Each record carries the file's name and bytes, rotation 0, the
    render handle that pdf.js served for its page and the next identifier of
    the generator; the selection is not touched. How many records are
    appended is fixed by the libraries: none when the document does not open
    in pdf-lib or in pdf.js; otherwise every page is appended until the
    first one that pdf.js does not serve (the page after the last appended
    one, when fewer pages were appended than pdf-lib counts, is a page that
    pdf.js refused), and the document completes exactly when all the pages
    that pdf-lib counts were appended. *)
Theorem loadFile_appends (file : File) (st : State) :
  ∃ new,
    pages (loadFile file st).1 = pages st ++ new ∧
    selectedPages (loadFile file st).1 = selectedPages st ∧
    uuidCalls (loadFile file st).1 = (uuidCalls st + length new)%nat ∧
    sourcePageIndex <$> new = seq 0 (length new) ∧
    id <$> new = randomUUID <$> seq (uuidCalls st) (length new) ∧
    Forall (λ p, sourceFile p = name file ∧ pdfBytes p = arrayBuffer file ∧
                 rotation p = 0 ∧
                 getPage (arrayBuffer file) (sourcePageIndex p + 1) = Some (pdfJsPage p))
      new ∧
    (PDFDocument_parse (arrayBuffer file) = None ∨
     getDocument (arrayBuffer file) = false →
       new = [] ∧ (loadFile file st).2 = Caught) ∧
    (∀ angles,
       PDFDocument_parse (arrayBuffer file) = Some angles →
       getDocument (arrayBuffer file) = true →
       (length new ≤ length angles)%nat ∧
       ((length new < length angles)%nat →
          getPage (arrayBuffer file) (length new + 1) = None ∧
          (loadFile file st).2 = Caught) ∧
       (length new = length angles → (loadFile file st).2 = Completed)).
Proof.
  unfold loadFile.
  destruct (PDFDocument_parse (arrayBuffer file)) as [angles|] eqn:Hparse.
  - destruct (getDocument (arrayBuffer file)) eqn:Hopen.
    + destruct (loadPages_appends file (arrayBuffer file) (length angles) 0 st)
        as (new & Hpages & Hsel & Huuid & Hidx & Hids & Hall & Hout).
      exists new. split; [done|]. split; [done|]. split; [done|].
      split; [done|]. split; [done|]. split; [done|]. split.
      * by intros [?|?].
      * intros angles' [= <-] _.
        destruct (loadPages file (arrayBuffer file) (length angles) 0 st).2.
        -- split; [lia|]. split; [lia | done].
        -- destruct Hout as [Hlt Hnone]. split; [lia|].
           split; [done | lia].
    + exists []. simpl. rewrite app_nil_r, Nat.add_0_r.
      split; [done|]. split; [done|]. split; [done|].
      split; [done|]. split; [done|]. split; [done|]. split; [done|].
      by intros angles' _ ?.
  - exists []. simpl. rewrite app_nil_r, Nat.add_0_r.
    split; [done|]. split; [done|]. split; [done|].
    split; [done|]. split; [done|]. split; [done|]. split; [done|].
    by intros angles' ?.
Qed.

Lemma loadFile_selection (file : File) (st : State) :
  selectedPages (loadFile file st).1 = selectedPages st.
Proof. by destruct (loadFile_new_records file st) as (new & _ & Hsel & _). Qed.

Lemma loadPDFs_selection (files : list File) (st : State) :
  selectedPages (loadPDFs files st).1 = selectedPages st.
Proof.
  revert st. induction files as [|file files IH]; intros st; simpl; [done|].
  pose proof (loadFile_selection file st) as Hfile.
  destruct (loadFile file st) as [st' []]; simpl in *; [|done].
  by rewrite IH.
Qed.

Lemma prefix_liveIds (st st' : State) :
  pages st `prefix_of` pages st' → liveIds st ⊆ liveIds st'.
Proof.
  intros [new Hnew] x. rewrite !elem_of_liveIds. intros (p & Hp & <-).
  exists p. split; [|done]. rewrite Hnew. apply elem_of_app. by left.
Qed.

(** X13: loading, whether it completes or ends in the [catch], never
    touches the selection and never removes or moves a record: a selection
    without dangling id stays without dangling id. *)
Theorem loadPDFs_keeps_selection (files : list File) (st : State) :
  selectedPages (loadPDFs files st).1 = selectedPages st ∧
  pages st `prefix_of` pages (loadPDFs files st).1 ∧
  (no_dangling st → no_dangling (loadPDFs files st).1).
Proof.
  split; [apply loadPDFs_selection|]. split; [apply loadPDFs_prefix|].
  unfold no_dangling. rewrite loadPDFs_selection. intros Hinv.
  etrans; [exact Hinv|]. apply prefix_liveIds, loadPDFs_prefix.
Qed.

(** X14: the first document that fails ends the batch: the files after
    it are not loaded at all. *)
Theorem loadPDFs_stops_at_failure (files1 files2 : list File) (st st1 : State) :
  loadPDFs files1 st = (st1, Caught) →
  loadPDFs (files1 ++ files2) st = (st1, Caught).
Proof. intros Hfail. by rewrite loadPDFs_app, Hfail. Qed.

(** X15: a batch that completes appends, file after file in the order of
    the batch and page after page in the order of the document, one record
    for each page that pdf-lib counts in each file. *)
Theorem loadPDFs_completed_order (files : list File) (st : State) :
  (loadPDFs files st).2 = Completed →
  ∃ new,
    pages (loadPDFs files st).1 = pages st ++ new ∧
    (λ p, (sourceFile p, pdfBytes p, sourcePageIndex p)) <$> new =
      files ≫= (λ file,
        (λ i, (name file, arrayBuffer file, i)) <$>
          seq 0 (from_option length 0%nat (PDFDocument_parse (arrayBuffer file)))).
Proof.
  revert st. induction files as [|file files IH]; intros st; simpl.
  - intros _. exists []. by rewrite app_nil_r.
  - destruct (loadFile_new_records file st)
      as (new1 & Hpages1 & _ & _ & Hidx & _ & Hall & Hdone).
    destruct (loadFile file st) as [st1 []] eqn:Hfile; simpl in *; [|done].
    intros Hrest. destruct (IH st1 Hrest) as (new2 & Hpages2 & Horder).
    destruct Hdone as [(angles & Hparse & _ & Hlen) _]; [done|].
    exists (new1 ++ new2). rewrite Hpages2, Hpages1, <-app_assoc.
    split; [done|]. rewrite fmap_app, Horder. f_equal.
    rewrite Hparse. simpl. rewrite <-Hlen, <-Hidx.
    rewrite <-list_fmap_compose.
    apply Forall_fmap_ext_1. eapply Forall_impl; [exact Hall|].
    intros p (Hname & Hbytes & _). simpl. by rewrite Hname, Hbytes.
Qed.

End LoadMore.

Lemma loadPDFs_stops_at_failure_witness :
  @loadPDFs toyLibs [twoPages; notPdf] initial =
    (fst (@loadPDFs toyLibs [twoPages] initial), Caught) ∧
  @loadPDFs toyLibs ([twoPages; notPdf] ++ [scanA; scanB]) initial =
    (fst (@loadPDFs toyLibs [twoPages] initial), Caught).
Proof.
  assert (Hfail : @loadPDFs toyLibs [twoPages; notPdf] initial =
            (fst (@loadPDFs toyLibs [twoPages] initial), Caught)) by reflexivity.
  split; [exact Hfail|].
  exact (@loadPDFs_stops_at_failure toyLibs _ [scanA; scanB] _ _ Hfail).
Defined.

Lemma loadPDFs_completed_order_witness :
  snd (@loadPDFs toyLibs [twoPages; scanB] initial) = Completed ∧
  (λ p, (sourceFile p, sourcePageIndex p)) <$>
    pages (fst (@loadPDFs toyLibs [twoPages; scanB] initial)) =
    [("scan.pdf", 0%nat); ("scan.pdf", 1%nat); ("scan.pdf", 0%nat)].
Proof.
  assert (Hdone : snd (@loadPDFs toyLibs [twoPages; scanB] initial) = Completed)
    by reflexivity.
  split; [exact Hdone|].
  destruct (@loadPDFs_completed_order toyLibs [twoPages; scanB] initial Hdone)
    as (new & Hpages & Horder).
  rewrite Hpages. simpl app.
  apply (f_equal (fmap (λ t : string * list Byte.byte * nat, (t.1.1, t.2)))) in Horder.
  rewrite <-list_fmap_compose in Horder. etrans; [exact Horder|]. reflexivity.
Defined.

(** ** Export *)

Section MapKeys.
Context {V : Type}.
Implicit Types (m : list (string * V)) (v : V) (key k : string).

Lemma Map_set_keys key v m :
  (Map_set key v m).*1 = if bool_decide (key ∈ m.*1) then m.*1 else m.*1 ++ [key].
Proof.
  induction m as [|[k' w] m IH].
  - done.
  - cbn [Map_set]. rewrite fmap_cons. cbn [fst].
    destruct (decide (k' = key)) as [->|Hne].
    + rewrite (bool_decide_eq_true_2 (key = key)) by done.
      rewrite bool_decide_eq_true_2; [done|]. left.
    + rewrite (bool_decide_eq_false_2 (k' = key)) by done.
      rewrite fmap_cons, IH. cbn [fst].
      destruct (decide (key ∈ m.*1)) as [Hin|Hout].
      * rewrite (bool_decide_eq_true_2 _ Hin).
        rewrite bool_decide_eq_true_2; [done|]. by right.
      * rewrite (bool_decide_eq_false_2 _ Hout).
        rewrite bool_decide_eq_false_2; [done|].
        intros [?|?]%elem_of_cons; congruence.
Qed.

Lemma Map_set_NoDup key v m : NoDup m.*1 → NoDup (Map_set key v m).*1.
Proof.
  intros Hnd. rewrite Map_set_keys. case_bool_decide as Hin; [done|].
  apply NoDup_app. split; [done|]. split; [|apply NoDup_singleton].
  intros k Hk ->%list_elem_of_singleton. done.
Qed.

Lemma Map_unique key v w m : NoDup m.*1 → (key, v) ∈ m → (key, w) ∈ m → v = w.
Proof.
  induction m as [|[k' u] m IH]; csimpl; [by intros _ ?%elem_of_nil|].
  intros [Hk Hnd]%NoDup_cons [Hv|Hv]%elem_of_cons [Hw|Hw]%elem_of_cons.
  - congruence.
  - injection Hv as <- <-. destruct Hk. apply list_elem_of_fmap. by exists (key, w).
  - injection Hw as <- <-. destruct Hk. apply list_elem_of_fmap. by exists (key, v).
  - by apply IH.
Qed.

End MapKeys.

Lemma groups_keys (es : list (nat * PageRecord)) :
  NoDup (foldl (λ m e, addToGroup m e.2 e.1) [] es).*1.
Proof.
  induction es as [|[index page] es IH] using rev_ind; [constructor|].
  rewrite foldl_snoc, addToGroup_set. by apply Map_set_NoDup.
Qed.

(** X16: the grouping of [downloadMerged] is a partition of the collection
    by key. The keys of [pagesBySource] are pairwise different (each key is
    opened once), they are exactly the keys of the records, no group is
    empty, and the group of a key holds exactly the records with that key,
    each with its position in the collection. *)
Theorem pagesBySource_partition (pages : list PageRecord) :
  NoDup (pagesBySource pages).*1 ∧
  (∀ k, k ∈ (pagesBySource pages).*1 ↔ ∃ p, p ∈ pages ∧ sourceKey p = k) ∧
  (∀ k g, (k, g) ∈ pagesBySource pages →
     Group.pages g ≠ [] ∧
     ∀ p i, (p, i) ∈ Group.pages g ↔ pages !! i = Some p ∧ sourceKey p = k).
Proof.
  assert (Hnd : NoDup (pagesBySource pages).*1) by apply groups_keys.
  assert (Hown : ∀ k g p i, (k, g) ∈ pagesBySource pages →
            pages !! i = Some p → sourceKey p = k → (p, i) ∈ Group.pages g).
  { intros k g p i Hg Hp <-.
    destruct (pagesBySource_complete pages i p Hp) as (g' & Hg' & Hin).
    by rewrite (Map_unique _ g g' _ Hnd Hg Hg'). }
  split; [done|]. split.
  - intros k. split.
    + intros [[k' g] [-> Hg]]%list_elem_of_fmap.
      destruct (pagesBySource_sound pages k' g Hg) as [_ (p0 & Hp0 & Hk0 & _)].
      by exists p0.
    + intros (p & [i Hp]%list_elem_of_lookup_1 & <-).
      destruct (pagesBySource_complete pages i p Hp) as (g & Hg & _).
      apply list_elem_of_fmap. by exists (sourceKey p, g).
  - intros k g Hg.
    destruct (pagesBySource_sound pages k g Hg) as [Hsound (p0 & Hp0 & Hk0 & _)].
    split.
    + apply list_elem_of_lookup_1 in Hp0 as [i0 Hp0].
      pose proof (Hown k g p0 i0 Hg Hp0 Hk0) as Hin.
      intros Hnil. rewrite Hnil in Hin. by apply elem_of_nil in Hin.
    + intros p i. split; [apply Hsound|]. intros [Hp Hk]. by eapply Hown.
Qed.

Section ExportMore.
Context `{External}.

(** X17: a saved export has exactly one page per record, and the page at
    position [i] is a copy (never a blank page) of page [sourcePageIndex] of
    the bytes held by a record with the same key as the record at position
    [i]: the merged document follows the order of the collection, whatever
    the order in which the groups were copied. *)
Theorem downloadMerged_page_per_record (pages : list PageRecord)
    (mergedPdf : list PDFPage) :
  downloadMerged pages = Saved mergedPdf →
  length mergedPdf = length pages ∧
  ∀ i p, pages !! i = Some p →
    ∃ q b, mergedPdf !! i = Some q ∧ group_bytes pages p b ∧
           origin q = Some (b, sourcePageIndex p).
Proof.
  intros Hsaved%downloadMerged_saved. split.
  - symmetry. by eapply Forall2_length.
  - intros i p Hp.
    destruct (Forall2_lookup_l _ _ _ _ _ Hsaved Hp)
      as (q & Hq & b & Hb & a & Ha & Horigin & Hangle).
    by exists q, b.
Qed.

(** X18: a record that was not rotated in the application is exported
    with the rotation that the copied page carries in the document it was
    copied from: the page at the record's position is the copy of page
    [sourcePageIndex] of some bytes [b] (those of a record with the same
    key), and its rotation is the one that page has in [b]; [setRotation]
    is not called for it. *)
Theorem downloadMerged_unrotated (pages : list PageRecord) (mergedPdf : list PDFPage)
    (i : nat) (p : PageRecord) :
  downloadMerged pages = Saved mergedPdf →
  pages !! i = Some p →
  rotation p = 0 →
  ∃ q b, mergedPdf !! i = Some q ∧ group_bytes pages p b ∧
         origin q = Some (b, sourcePageIndex p) ∧
         existingRotation b (sourcePageIndex p) = Some (angle q).
Proof.
  intros Hsaved%downloadMerged_saved Hp Hrot.
  destruct (Forall2_lookup_l _ _ _ _ _ Hsaved Hp)
    as (q & Hq & b & Hb & a & Ha & Horigin & Hangle).
  exists q, b. split; [done|]. split; [done|]. split; [done|].
  rewrite bool_decide_eq_false_2 in Hangle by (by intros []).
  by rewrite Hangle.
Qed.


(** X20: the export is all or nothing. When no two files share name and
    length and the page of some record does not exist in its document (the
    bytes do not parse, or the document is too short), [downloadMerged] ends
    in its [catch]: no document is saved, not even with the other pages. *)
Theorem downloadMerged_fails_fast (pages : list PageRecord) (p : PageRecord) :
  keys_identify pages →
  p ∈ pages →
  existingRotation (pdfBytes p) (sourcePageIndex p) = None →
  downloadMerged pages = Failed.
Proof.
  intros Hkeys Hp Hnone.
  destruct (downloadMerged pages) as [| |out] eqn:Hres; [|done|].
  - unfold downloadMerged in Hres. case_bool_decide as Hlen.
    + destruct pages; [by apply elem_of_nil in Hp | done].
    + by destruct (copySources _ _).
  - apply downloadMerged_faithful in Hres; [|done].
    apply list_elem_of_lookup_1 in Hp as [i Hi].
    destruct (Forall2_lookup_l _ _ _ _ _ Hres Hi) as (q & _ & a & Ha & _).
    congruence.
Qed.

(** [downloadMerged] returns at once, doing nothing, exactly when the
    collection is empty. *)
Lemma downloadMerged_nothing_iff_empty (pages : list PageRecord) :
  downloadMerged pages = NothingToDo ↔ pages = [].
Proof.
  unfold downloadMerged. split.
  - case_bool_decide as Hlen; [by destruct pages|]. by destruct (copySources _ _).
  - by intros ->.
Qed.

Lemma exported_unique (b : list Byte.byte) (p : PageRecord) (q1 q2 : PDFPage) :
  exported b p q1 → exported b p q2 → q1 = q2.
Proof.
  intros (a1 & Ha1 & Ho1 & Hr1) (a2 & Ha2 & Ho2 & Hr2).
  destruct q1, q2; simpl in *. simplify_eq. done.
Qed.

(** X21: when no two files share name and length, the exported page of a
    record depends on the record alone, not on its position nor on the rest
    of the collection: the same record gives the same page in the export of
    any two such collections (before and after a reordering or a deletion,
    for instance). *)
Theorem downloadMerged_page_of_record (pages1 pages2 : list PageRecord)
    (mergedPdf1 mergedPdf2 : list PDFPage) (i j : nat) (p : PageRecord) :
  keys_identify pages1 → keys_identify pages2 →
  downloadMerged pages1 = Saved mergedPdf1 →
  downloadMerged pages2 = Saved mergedPdf2 →
  pages1 !! i = Some p → pages2 !! j = Some p →
  ∃ q, mergedPdf1 !! i = Some q ∧ mergedPdf2 !! j = Some q.
Proof.
  intros Hk1 Hk2 Hs1%downloadMerged_faithful Hs2%downloadMerged_faithful Hi Hj;
    [|done..].
  destruct (Forall2_lookup_l _ _ _ _ _ Hs1 Hi) as (q1 & Hq1 & He1).
  destruct (Forall2_lookup_l _ _ _ _ _ Hs2 Hj) as (q2 & Hq2 & He2).
  exists q1. split; [done|]. by rewrite (exported_unique _ _ _ _ He1 He2).
Qed.

End ExportMore.

(** ** The events of the page *)

Lemma renderThumbnails_lookup (st : State) (index : nat) (card : Card) :
  renderThumbnails st !! index = Some card ↔
  pages st !! index = Some (cardPage card) ∧ cardIndex card = index.
Proof.
  unfold renderThumbnails. rewrite list_lookup_imap. split.
  - destruct (pages st !! index) as [p|]; [|done]. simpl. by intros [= <-].
  - intros [-> <-]. simpl. by destruct card.
Qed.

Lemma withPages_defined (l : list PageRecord) (st : State) :
  withPages (Some <$> l) st =
    Some {| pages := l; selectedPages := selectedPages st; uuidCalls := uuidCalls st |}.
Proof. unfold withPages. by rewrite mapM_fmap_Some. Qed.

Lemma in_bounds_lookup (pages : list PageRecord) (i : nat) (p : PageRecord) :
  pages !! i = Some p → in_bounds pages (Z.of_nat i).
Proof. intros Hp%lookup_lt_Some. unfold in_bounds. lia. Qed.

Section EventProperties.
Context `{External}.

(** What dragging the card at position [dragged] onto the card at position
    [index] does to the state. *)
Lemma handle_CardDragged (st : State) (dragged index : nat) (source target : Card) :
  renderThumbnails st !! dragged = Some source →
  renderThumbnails st !! index = Some target →
  ∃ pages',
    handle (CardDragged dragged index) st =
      Some {| pages := pages'; selectedPages := selectedPages st;
              uuidCalls := uuidCalls st |} ∧
    pages' ≡ₚ pages st ∧
    pages' !! index = Some (cardPage source).
Proof.
  intros Hsource Htarget. simpl. rewrite Hsource, Htarget.
  apply renderThumbnails_lookup in Hsource as [Hsource Hd].
  apply renderThumbnails_lookup in Htarget as [Htarget Hi].
  unfold onCardDrop. rewrite Hd, Hi. case_bool_decide as Hne.
  - destruct (reorderPages_in_bounds (pages st) (Z.of_nat dragged) (Z.of_nat index))
      as (pages' & Heq & Hlen & Hlook & Hdel);
      [by eapply in_bounds_lookup | by eapply in_bounds_lookup |].
    exists pages'. rewrite Heq, withPages_defined. split; [done|].
    rewrite !Nat2Z.id in Hlook. split; [|by rewrite Hlook].
    pose proof (reorderPages_records (Z.of_nat dragged) (Z.of_nat index) (pages st))
      as Hperm.
    rewrite Heq in Hperm. etrans; [|exact Hperm].
    unfold records. clear. induction pages' as [|p ps IH]; [done|].
    csimpl. by f_equiv.
  - exists (pages st). rewrite withPages_defined. split; [done|]. split; [done|].
    by rewrite <-Hne.
Qed.

(** X22: dragging a card onto another card moves the record of the first
    to the position of the second: the array keeps all its records and gets
    no empty slot, the selection is not touched, and the dragged record is
    where it was dropped. *)
Theorem drag_card_moves (st : State) (dragged index : nat) (source target : Card) :
  renderThumbnails st !! dragged = Some source →
  renderThumbnails st !! index = Some target →
  ∃ st', handle (CardDragged dragged index) st = Some st' ∧
         pages st' ≡ₚ pages st ∧
         pages st' !! index = Some (cardPage source) ∧
         selectedPages st' = selectedPages st.
Proof.
  intros Hsource Htarget.
  destruct (handle_CardDragged st dragged index source target Hsource Htarget)
    as (pages' & Heq & Hperm & Hlook).
  eexists. split; [exact Heq|]. by repeat split.
Qed.

Lemma quarter_turn_rotatePage (p : PageRecord) :
  quarter_turn (rotation p) → quarter_turn (rotation (rotatePage p)).
Proof.
  unfold quarter_turn. simpl.
  intros [->|[->|[->| ->]]]; vm_compute; tauto.
Qed.

Lemma consistent_same_records (st st' : State) :
  consistent st →
  no_dangling st' →
  NoDup (id <$> pages st') →
  (uuidCalls st ≤ uuidCalls st')%nat →
  (∀ q, q ∈ pages st' → ∃ p, p ∈ pages st ∧ same_page p q ∧
                            quarter_turn (rotation q)) →
  consistent st'.
Proof.
  intros (_ & _ & Hall) Hsel Hnd Huuid Hrec. split; [done|]. split; [done|].
  apply Forall_forall. intros q Hq.
  destruct (Hrec q Hq) as (p & Hp & (Hid & _ & Hidx & Hbytes & _) & Hturn).
  rewrite Forall_forall in Hall.
  destruct (Hall p Hp) as ((k & Hk & Hdrawn) & (angles & Hparse & Hlen) & _).
  split; [|split; [|done]].
  - exists k. split; [lia | congruence].
  - exists angles. rewrite Hbytes, Hidx. done.
Qed.

Lemma same_page_refl (p : PageRecord) : same_page p p.
Proof. by unfold same_page. Qed.

Lemma consistent_push (st : State) (r : PageRecord) (angles : list Z) :
  Inj (=) (=) randomUUID →
  consistent st →
  id r = randomUUID (uuidCalls st) →
  PDFDocument_parse (pdfBytes r) = Some angles →
  (sourcePageIndex r < length angles)%nat →
  rotation r = 0 →
  consistent {| pages := pages st ++ [r]; selectedPages := selectedPages st;
                uuidCalls := S (uuidCalls st) |}.
Proof.
  intros Hinj (Hsel & Hnd & Hall) Hid Hparse Hidx Hrot. split; [|split].
  - unfold no_dangling in *. etrans; [exact Hsel|].
    apply prefix_liveIds. simpl. by apply prefix_app_r.
  - simpl. rewrite fmap_app. apply NoDup_app. split; [done|]. split.
    + intros x Hx ->%list_elem_of_singleton.
      apply list_elem_of_fmap in Hx as (p & Hxp & Hp).
      rewrite Forall_forall in Hall.
      destruct (Hall p Hp) as ((k & Hk & Hdrawn) & _).
      rewrite Hid, Hdrawn in Hxp. apply Hinj in Hxp. lia.
    + apply NoDup_singleton.
  - simpl. apply Forall_app. split.
    + eapply Forall_impl; [exact Hall|]. intros p ((k & Hk & Hdrawn) & Hl & Ht).
      split; [|done]. exists k. simpl. split; [lia | done].
    + apply Forall_singleton. split; [|split].
      * exists (uuidCalls st). simpl. split; [lia | done].
      * by exists angles.
      * left. done.
Qed.

Lemma loadPages_consistent (file : File) (b : list Byte.byte) (angles : list Z)
    (todo i : nat) (st : State) :
  Inj (=) (=) randomUUID →
  PDFDocument_parse b = Some angles →
  (i + todo ≤ length angles)%nat →
  consistent st →
  consistent (loadPages file b todo i st).1.
Proof.
  intros Hinj Hparse. revert i st.
  induction todo as [|todo IH]; intros i st Hlen Hst; simpl; [done|].
  destruct (getPage b (i + 1)) as [pdfJsPage|]; [|done].
  apply IH; [lia|].
  by apply (consistent_push st (newRecord file b i pdfJsPage st) angles); simpl;
    try lia.
Qed.

Lemma loadPDFs_consistent (files : list File) (st : State) :
  Inj (=) (=) randomUUID → consistent st → consistent (loadPDFs files st).1.
Proof.
  intros Hinj. revert st.
  induction files as [|file files IH]; intros st Hst; simpl; [done|].
  assert (Hfile : consistent (loadFile file st).1).
  { unfold loadFile.
    destruct (PDFDocument_parse (arrayBuffer file)) as [angles|] eqn:Hparse; [|done].
    destruct (getDocument _); [|done].
    by apply (loadPages_consistent _ _ angles). }
  destruct (loadFile file st) as [st' []]; [by apply IH | done].
Qed.

Lemma records_kept (st : State) (pages' : list PageRecord) :
  consistent st →
  (∀ q, q ∈ pages' → q ∈ pages st) →
  ∀ q, q ∈ pages' → ∃ p, p ∈ pages st ∧ same_page p q ∧ quarter_turn (rotation q).
Proof.
  intros (_ & _ & Hall) Hsub q Hq. exists q. split; [by apply Hsub|].
  split; [apply same_page_refl|].
  rewrite Forall_forall in Hall. by destruct (Hall q (Hsub q Hq)) as (_ & _ & ?).
Qed.

Lemma handle_consistent (e : Event) (st : State) :
  Inj (=) (=) randomUUID →
  consistent st →
  ∃ st', handle e st = Some st' ∧ consistent st'.
Proof.
  intros Hinj Hst. pose proof Hst as (Hsel & Hnd & Hall).
  destruct e as [files|index|dragged index| | | | |].
  - eexists. split; [done|]. case_bool_decide; [|done].
    by apply loadPDFs_consistent.
  - simpl. destruct (renderThumbnails st !! index) as [card|] eqn:Hcard;
      [|by eexists].
    eexists. split; [done|].
    apply renderThumbnails_lookup in Hcard as [Hcard _].
    apply (consistent_same_records st _ Hst).
    + apply toggleSelection_no_dangling; [done|].
      apply elem_of_liveIds. exists (cardPage card). split; [|done].
      by eapply list_elem_of_lookup_2.
    + done.
    + done.
    + by apply records_kept.
  - destruct (renderThumbnails st !! dragged) as [source|] eqn:Hsource;
      [|simpl; rewrite Hsource; by eexists].
    destruct (renderThumbnails st !! index) as [target|] eqn:Htarget;
      [|simpl; rewrite Hsource, Htarget; by eexists].
    destruct (handle_CardDragged st dragged index source target Hsource Htarget)
      as (pages' & Heq & Hperm & _).
    eexists. split; [exact Heq|].
    apply (consistent_same_records st _ Hst); simpl.
    + unfold no_dangling, liveIds in *. simpl. by rewrite Hperm.
    + by rewrite Hperm.
    + done.
    + apply records_kept; [done|]. intros q Hq. by rewrite <-Hperm.
  - eexists. split; [done|].
    apply (consistent_same_records st _ Hst).
    + unfold no_dangling in *. unfold selectAll; simpl. rewrite selectAll_fold.
      unfold liveIds in *. simpl. set_solver.
    + done.
    + done.
    + by apply records_kept.
  - eexists. split; [done|].
    apply (consistent_same_records st _ Hst).
    + unfold no_dangling, deselectAll; simpl. set_solver.
    + done.
    + done.
    + by apply records_kept.
  - eexists. split; [done|].
    assert (Hids : id <$> pages (rotateSelected st) = id <$> pages st).
    { rewrite rotateSelected_pages, <-list_fmap_compose.
      apply list_fmap_ext. intros i p _. simpl. by destruct (bool_decide _). }
    apply (consistent_same_records st _ Hst).
    + unfold no_dangling, liveIds in *. by rewrite Hids.
    + by rewrite Hids.
    + done.
    + intros q Hq. rewrite rotateSelected_pages in Hq.
      apply list_elem_of_fmap in Hq as (p & -> & Hp).
      exists p. split; [done|].
      rewrite Forall_forall in Hall. destruct (Hall p Hp) as (_ & _ & Hturn).
      destruct (bool_decide _); [|by split; [apply same_page_refl|]].
      split; [by unfold same_page | by apply quarter_turn_rotatePage].
  - eexists. split; [done|].
    apply (consistent_same_records st _ Hst).
    + apply deleteSelected_no_dangling.
    + eapply sublist_NoDup; [exact Hnd|]. apply fmap_sublist, sublist_filter.
    + done.
    + apply records_kept; [done|]. by intros q [_ Hq]%list_elem_of_filter.
  - eexists. split; [done|]. split; [|split]; simpl.
    + unfold no_dangling; simpl. set_solver.
    + constructor.
    + constructor.
Qed.

Lemma consistent_initial : consistent initial.
Proof.
  split; [|split]; simpl.
  - unfold no_dangling; simpl. set_solver.
  - constructor.
  - constructor.
Qed.

(** X23: whatever the user does (choose files, click cards, drag cards
    onto cards, press the toolbar buttons), in any order and from the start
    of the page, provided the identifier generator never repeats itself: the
    [pages] array never gets an empty slot, every selected id is the id of
    a record, no two records share an id, every record points at a page
    that exists in bytes that parse, and every rotation is 0, 90, 180 or
    270. *)
Theorem events_keep_consistent (events : list Event) :
  Inj (=) (=) randomUUID →
  ∃ st, run events initial = Some st ∧ consistent st.
Proof.
  intros Hinj. generalize consistent_initial. generalize initial.
  induction events as [|e events IH]; intros st Hst; simpl.
  - by exists st.
  - destruct (handle_consistent e st Hinj Hst) as (st' & -> & Hst'). simpl.
    by apply IH.
Qed.


End EventProperties.

(** ** The properties above at concrete inputs *)

Ltac each_record Hp :=
  repeat (apply elem_of_cons in Hp as [->|Hp]); [..|by apply elem_of_nil in Hp].

Lemma threePages_keys : keys_identify (pages threePages).
Proof.
  intros p p0 Hp Hp0 Hk. simpl in Hp, Hp0.
  each_record Hp; each_record Hp0;
    first [reflexivity | vm_compute in Hk; discriminate Hk].
Qed.

Lemma twoLeft_keys : keys_identify twoLeft.
Proof.
  intros p p0 Hp Hp0 Hk. unfold twoLeft in Hp, Hp0.
  each_record Hp; each_record Hp0;
    first [reflexivity | vm_compute in Hk; discriminate Hk].
Qed.

Lemma threePages_saved : @downloadMerged toyLibs (pages threePages) = Saved threeMerged.
Proof. vm_compute. reflexivity. Qed.

Lemma downloadMerged_page_per_record_witness :
  @downloadMerged toyLibs (pages threePages) = Saved threeMerged ∧
  length threeMerged = length (pages threePages) ∧
  ∀ i p, pages threePages !! i = Some p →
    ∃ q b, threeMerged !! i = Some q ∧ group_bytes (pages threePages) p b ∧
           origin q = Some (b, sourcePageIndex p).
Proof.
  split; [exact threePages_saved|].
  exact (@downloadMerged_page_per_record toyLibs _ _ threePages_saved).
Defined.

Lemma downloadMerged_unrotated_witness :
  @downloadMerged toyLibs (pages threePages) = Saved threeMerged ∧
  pages threePages !! 1%nat = Some page_b ∧
  rotation page_b = 0 ∧
  ∃ q b, threeMerged !! 1%nat = Some q ∧ group_bytes (pages threePages) page_b b ∧
         origin q = Some (b, sourcePageIndex page_b) ∧
         @existingRotation toyLibs b (sourcePageIndex page_b) = Some (angle q).
Proof.
  split; [exact threePages_saved|]. split; [reflexivity|]. split; [reflexivity|].
  exact (@downloadMerged_unrotated toyLibs _ _ 1%nat page_b
           threePages_saved eq_refl eq_refl).
Defined.


Lemma downloadMerged_fails_fast_witness :
  keys_identify [page_c; page_gone] ∧
  page_gone ∈ [page_c; page_gone] ∧
  @existingRotation toyLibs (pdfBytes page_gone) (sourcePageIndex page_gone) = None ∧
  @downloadMerged toyLibs [page_c; page_gone] = Failed.
Proof.
  assert (Hkeys : keys_identify [page_c; page_gone]).
  { intros p p0 Hp Hp0 Hk.
    each_record Hp; each_record Hp0;
      first [reflexivity | vm_compute in Hk; discriminate Hk]. }
  assert (Hin : page_gone ∈ [page_c; page_gone]) by (right; left).
  split; [exact Hkeys|]. split; [exact Hin|]. split; [reflexivity|].
  exact (@downloadMerged_fails_fast toyLibs _ page_gone Hkeys Hin eq_refl).
Defined.

Lemma downloadMerged_page_of_record_witness :
  keys_identify (pages threePages) ∧ keys_identify twoLeft ∧
  @downloadMerged toyLibs (pages threePages) = Saved threeMerged ∧
  @downloadMerged toyLibs twoLeft =
    Saved [{| origin := Some (pdfBytes page_c, 0%nat); angle := 0 |};
           {| origin := Some (pdfBytes page_a, 0%nat); angle := 0 |}] ∧
  ∃ q, threeMerged !! 0%nat = Some q ∧
       [{| origin := Some (pdfBytes page_c, 0%nat); angle := 0 |};
        {| origin := Some (pdfBytes page_a, 0%nat); angle := 0 |}] !! 1%nat = Some q.
Proof.
  assert (Hleft : @downloadMerged toyLibs twoLeft =
    Saved [{| origin := Some (pdfBytes page_c, 0%nat); angle := 0 |};
           {| origin := Some (pdfBytes page_a, 0%nat); angle := 0 |}])
    by (vm_compute; reflexivity).
  split; [exact threePages_keys|]. split; [exact twoLeft_keys|].
  split; [exact threePages_saved|]. split; [exact Hleft|].
  exact (@downloadMerged_page_of_record toyLibs _ _ _ _ 0%nat 1%nat page_a
           threePages_keys twoLeft_keys threePages_saved Hleft eq_refl eq_refl).
Defined.

Lemma drag_card_moves_witness :
  renderThumbnails threePages !! 0%nat = Some {| cardPage := page_a; cardIndex := 0 |} ∧
  renderThumbnails threePages !! 2%nat = Some {| cardPage := page_c; cardIndex := 2 |} ∧
  ∃ st', @handle toyLibs (CardDragged 0 2) threePages = Some st' ∧
         pages st' ≡ₚ pages threePages ∧
         pages st' !! 2%nat = Some page_a ∧
         selectedPages st' = selectedPages threePages.
Proof.
  split; [reflexivity|]. split; [reflexivity|].
  exact (@drag_card_moves toyLibs threePages 0 2 _ _ eq_refl eq_refl).
Defined.

Lemma toyLibs_uuid_inj : Inj (=) (=) (@randomUUID toyLibs).
Proof. intros m n Heq. simpl in Heq. by apply (inj pretty) in Heq. Qed.

Lemma events_keep_consistent_witness :
  Inj (=) (=) (@randomUUID toyLibs) ∧
  ∃ st, @run toyLibs
          [FilesChosen [twoPages; scanB]; CardClicked 0; RotatePressed;
           CardDragged 0 2; SelectAllPressed; CardClicked 1; DeletePressed]
          initial = Some st ∧
        @consistent toyLibs st.
Proof.
  split; [exact toyLibs_uuid_inj|].
  exact (@events_keep_consistent toyLibs _ toyLibs_uuid_inj).
Defined.


